(** * today: commit selection over git histories

    A shallow embedding of [getCommitMessages] and its helpers (the
    latest revision of the program, with the [--author] and [--short]
    flags), together with the parts of the Go standard library and of
    go-git that it calls.

    - Strings are Go byte strings: [String.string].
    - A [time.Time] is the instant it denotes, a count of nanoseconds
      ([Z]); [UTC()] changes the location only, never the instant.
    - A [time.Duration] is an [int64]; unary minus wraps.
    - [map[string][]string] is a [gmap string (list string)]; reading an
      absent key yields the nil slice.
    - go-git's commit iterator is mutable: [Next] returns the iterator
      that is left.  The clock is read through [time.Now]; the number of
      readings made so far is threaded through [getCommitMessages]. *)

From Stdlib Require Import ZArith String Ascii List Bool Lia.
From stdpp Require Import base gmap strings list fin_maps sorting.

Local Open Scope string_scope.
Local Open Scope list_scope.
Local Open Scope Z_scope.

(** ** Errors and fallible results *)

Inductive error : Type :=
| io_EOF                      (* io.EOF: the iterator is exhausted *)
| ErrRepositoryNotExists      (* git.ErrRepositoryNotExists *)
| ErrReferenceNotFound        (* plumbing.ErrReferenceNotFound *)
| ErrOther (msg : string).    (* any other error value *)

(** A Go pair [(v, err)]: either [err == nil] and the value counts, or
    the error does and the value is nil. *)
Inductive Result (A : Type) : Type :=
| Ok (v : A)
| Err (e : error).
Arguments Ok {A} v.
Arguments Err {A} e.

#[global] Instance Result_ret : MRet Result := fun _ v => Ok v.
#[global] Instance Result_bind : MBind Result := fun _ _ k r =>
  match r with
  | Ok v => k v
  | Err e => Err e
  end.

Definition is_Err {A} (r : Result A) : bool :=
  match r with Ok _ => false | Err _ => true end.

(** ** The Go standard library, as far as the program uses it *)

Module strings.

(** [strings.Contains(s, substr)]. *)
Fixpoint Contains (s substr : string) : bool :=
  String.prefix substr s ||
  match s with
  | EmptyString => false
  | String _ s' => Contains s' substr
  end.

Fixpoint drop (n : nat) (s : string) : string :=
  match n, s with
  | O, _ => s
  | S n', String _ s' => drop n' s'
  | S _, EmptyString => EmptyString
  end.

(** [strings.Cut(s, sep)]: the text before and after the first [sep],
    and whether [sep] occurs; without [sep] it is [(s, "", false)]. *)
Fixpoint Cut (s sep : string) : string * string * bool :=
  if String.prefix sep s then (EmptyString, drop (String.length sep) s, true)
  else match s with
       | EmptyString => (EmptyString, EmptyString, false)
       | String a s' =>
           let '(before, after, found) := Cut s' sep in
           (String a before, after, found)
       end.

End strings.

Module filepath.

(** [filepath.Separator] on Unix. *)
Definition Separator : ascii := "/"%char.
Definition IsPathSeparator (c : ascii) : bool := Ascii.eqb c Separator.

(** The loop that strips trailing separators. *)
Fixpoint stripTrailing (path : string) : string :=
  match path with
  | EmptyString => EmptyString
  | String c rest =>
      match stripTrailing rest with
      | EmptyString => if IsPathSeparator c then EmptyString else String c EmptyString
      | kept => String c kept
      end
  end.

Fixpoint hasSeparator (path : string) : bool :=
  match path with
  | EmptyString => false
  | String c rest => IsPathSeparator c || hasSeparator rest
  end.

(** [path[i+1:]] for the last separator [i], the whole of [path]
    without one. *)
Fixpoint lastElement (path : string) : string :=
  match path with
  | EmptyString => EmptyString
  | String c rest =>
      if hasSeparator rest then lastElement rest
      else if IsPathSeparator c then rest
      else path
  end.

(** [filepath.Base(path)] (Unix: no volume name). *)
Definition Base (path : string) : string :=
  if String.eqb path "" then "."
  else
    let path := lastElement (stripTrailing path) in
    if String.eqb path "" then String Separator EmptyString
    else path.

End filepath.

Module time.

(** An instant, in nanoseconds. *)
Definition Time : Type := Z.
(** An [int64] count of nanoseconds. *)
Definition Duration : Type := Z.

Definition wrap64 (z : Z) : Z := (z + 2 ^ 63) mod 2 ^ 64 - 2 ^ 63.

(** Unary minus on a [Duration]. *)
Definition neg (d : Duration) : Duration := wrap64 (- d).

Definition UTC (t : Time) : Time := t.
Definition Add (t : Time) (d : Duration) : Time := t + d.
(** [t.After(u)]: is [t] strictly later than [u]. *)
Definition After (t u : Time) : bool := u <? t.

Definition Minute : Duration := 60 * 1000000000.
Definition Hour : Duration := 60 * Minute.

End time.

(** ** go-git, as far as the program uses it *)

Record Signature : Type := {
  Name : string;
  Email : string;
  When : time.Time
}.

Record Commit : Type := {
  Author : Signature;
  Message : string
}.

(** [object.CommitIter]: the commits still to come, and the error [Next]
    reports once they are used up ([io_EOF] at the end of the history,
    another error when reading the history fails there). *)
Record CommitIter : Type := {
  pending : list Commit;
  at_end : error
}.

Definition Next (cIter : CommitIter) : Result (Commit * CommitIter) :=
  match pending cIter with
  | [] => Err (at_end cIter)
  | c :: rest => Ok (c, {| pending := rest; at_end := at_end cIter |})
  end.

Record Reference : Type := { Hash : string }.

(** [*git.Repository]: what [Head] and [Log] answer. *)
Record Repository : Type := {
  Head : Result Reference;
  Log : string -> Result CommitIter
}.

(** ** The process environment *)

(** [time_Now k] is what the [k]-th reading of [time.Now()] returns;
    [map_range] is the order in which [range] visits a map. *)
Record Env : Type := {
  os_Stat : string -> Result unit;
  syscall_Getwd : Result string;
  git_PlainOpen : string -> Result Repository;
  time_Now : nat -> time.Time;
  map_range : gmap string Repository -> list (string * Repository)
}.

(** The number of readings of the clock made so far. *)
Record World : Type := { clock_reads : nat }.

Definition readClock (env : Env) (w : World) : time.Time * World :=
  (time_Now env (clock_reads w), {| clock_reads := S (clock_reads w) |}).

(** ** The program *)

Definition LF : string := String (ascii_of_nat 10) EmptyString.

(** [validatePaths]: every path must exist and hold a [.git] entry. *)
Fixpoint validatePaths (env : Env) (paths : list string) : Result unit :=
  match paths with
  | [] => Ok tt
  | p :: rest =>
      match os_Stat env p with
      | Err _ => Err (ErrOther ("expected directory, but got " +:+ p +:+ LF))
      | Ok _ =>
          let gitDir := p +:+ "/.git" in
          match os_Stat env gitDir with
          | Err _ => Err (ErrOther (p +:+ " is not tracked by git"))
          | Ok _ => validatePaths env rest
          end
      end
  end.

Definition openGitDir (env : Env) (dir : string) : Result Repository :=
  match git_PlainOpen env dir with
  | Err e => Err e
  | Ok repo => Ok repo
  end.

(** [getRepositories], with [repos] the slice built so far. *)
Fixpoint getRepositories_from (env : Env) (repos : list Repository)
    (dirs : list string) : Result (list Repository) :=
  match dirs with
  | [] => Ok repos
  | dir :: rest =>
      match openGitDir env dir with
      | Err e => Err e
      | Ok repo => getRepositories_from env (repos ++ [repo]) rest
      end
  end.

Definition getRepositories (env : Env) (dirs : list string) : Result (list Repository) :=
  getRepositories_from env [] dirs.

Definition containsAuthor (c : Commit) (author : string) : bool :=
  strings.Contains (Name (Author c)) author.

Definition getBaseDirectoryName (env : Env) (p : string) : Result string :=
  if String.eqb p "./" || String.eqb p "." then
    match syscall_Getwd env with
    | Err e => Err e
    | Ok currentDir => Ok (filepath.Base currentDir)
    end
  else Ok (filepath.Base p).

(** [msgs[dir] = append(msgs[dir], msg)]. *)
Definition appendMessage (msgs : gmap string (list string)) (dir msg : string)
    : gmap string (list string) :=
  <[dir := default [] (msgs !! dir) ++ [msg]]> msgs.

(** The loop [for commitTime.After(timeSince) { ... }] of
    [getCommitMessages].  [rest] and [atEnd] are the state of [cIter];
    the [match] on [rest] is the call [cIter.Next()].  On leaving the
    loop it gives the map and what is left of the iterator. *)
Fixpoint commitLoop (author : string) (short : bool) (timeSince : time.Time)
    (dir : string) (currentCommit : Commit) (rest : list Commit) (atEnd : error)
    (msgs : gmap string (list string)) {struct rest}
    : Result (gmap string (list string) * CommitIter) :=
  let commitTime := time.UTC (When (Author currentCommit)) in
  if time.After commitTime timeSince then
    match rest with
    | [] => Err atEnd
    | nextCommit :: rest' =>
        if negb (String.eqb author "") && negb (containsAuthor currentCommit author) then
          commitLoop author short timeSince dir nextCommit rest' atEnd msgs
        else
          let msgs :=
            if short then
              let '(firstLine, _, _) := strings.Cut (Message currentCommit) LF in
              appendMessage msgs dir firstLine
            else appendMessage msgs dir (Message currentCommit) in
          commitLoop author short timeSince dir nextCommit rest' atEnd msgs
    end
  else Ok (msgs, {| pending := rest; at_end := atEnd |}).

(** The body of [for dir, repo := range dirToRepo]. *)
Definition getCommitMessages_dir (env : Env) (author : string) (short : bool)
    (since : time.Duration) (dir : string) (repo : Repository)
    (st : gmap string (list string) * World)
    : Result (gmap string (list string) * World) :=
  let '(msgs, w) := st in
  sanitisedDir ← getBaseDirectoryName env dir;
  let msgs := <[sanitisedDir := []]> msgs in
  ref ← Head repo;
  cIter ← Log repo (Hash ref);
  let '(now, w) := readClock env w in
  let now := time.UTC now in
  '(currentCommit, cIter) ← Next cIter;
  let timeSince := time.Add now (time.neg since) in
  '(msgs, _) ← commitLoop author short timeSince dir currentCommit
                 (pending cIter) (at_end cIter) msgs;
  mret (msgs, w).

(** The [range] loop, over the entries in the order they are visited. *)
Fixpoint getCommitMessages_range (env : Env) (author : string) (short : bool)
    (since : time.Duration) (entries : list (string * Repository))
    (st : gmap string (list string) * World)
    : Result (gmap string (list string) * World) :=
  match entries with
  | [] => Ok st
  | (dir, repo) :: rest =>
      st' ← getCommitMessages_dir env author short since dir repo st;
      getCommitMessages_range env author short since rest st'
  end.

Definition getCommitMessages (env : Env) (dirToRepo : gmap string Repository)
    (author : string) (short : bool) (since : time.Duration) (w : World)
    : Result (gmap string (list string) * World) :=
  getCommitMessages_range env author short since (map_range env dirToRepo) (∅, w).

(** How [main] ends. *)
Inductive Outcome : Type :=
| Exit (code : Z)                               (* [os.Exit(code)] *)
| Failed (e : error)                            (* the error is printed, [main] returns *)
| Printed (msgs : gmap string (list string)).   (* the mapping is printed *)

(** [dirToRepo[dirs[i]] = repos[i]] for every [i]. *)
Definition buildDirToRepo (dirs : list string) (repos : list Repository)
    : gmap string Repository :=
  foldl (fun m dr => <[dr.1 := dr.2]> m) ∅ (zip dirs repos).

(** [main], from the parsed flags and arguments on. *)
Definition main (env : Env) (author : string) (short : bool) (since : time.Duration)
    (args : list string) (w : World) : Outcome :=
  if Nat.eqb (length args) 0 then Exit 1
  else
    match validatePaths env args with
    | Err _ => Exit 2
    | Ok _ =>
        let dirs := args in
        match getRepositories env dirs with
        | Err e => Failed e
        | Ok repos =>
            let dirToRepo := buildDirToRepo dirs repos in
            match getCommitMessages env dirToRepo author short since w with
            | Err e => Failed e
            | Ok (msgs, _) => Printed msgs
            end
        end
    end.

(** The slice stored for [dir], as [msgs[dir]] reads it. *)
Definition messagesOf (msgs : gmap string (list string)) (dir : string) : list string :=
  default [] (msgs !! dir).

(** ** Vocabulary of the statements *)

(** The loop condition, for the commit [c]. *)
Definition inWindow (timeSince : time.Time) (c : Commit) : bool :=
  time.After (time.UTC (When (Author c))) timeSince.

(** The commit is not skipped by the author test of the loop. *)
Definition passesAuthor (author : string) (c : Commit) : bool :=
  String.eqb author "" || containsAuthor c author.

(** The text before the first line break, as [strings.Cut] gives it. *)
Definition firstLine (msg : string) : string := (strings.Cut msg LF).1.1.

(** The string the loop appends for an included commit. *)
Definition shown (short : bool) (c : Commit) : string :=
  if short then firstLine (Message c) else Message c.

(** What the loop appends for the in-window commits [cs], in order. *)
Definition selected (author : string) (short : bool) (cs : list Commit) : list string :=
  map (shown short) (List.filter (passesAuthor author) cs).

Definition appendMessages (msgs : gmap string (list string)) (dir : string)
    (xs : list string) : gmap string (list string) :=
  foldl (fun m x => appendMessage m dir x) msgs xs.

(** The instant the commits of a directory are compared with, when its
    walk starts in the world [w]. *)
Definition threshold (env : Env) (since : time.Duration) (w : World) : time.Time :=
  time.Add (time.UTC (time_Now env (clock_reads w))) (time.neg since).

Definition tick (w : World) : World := {| clock_reads := S (clock_reads w) |}.

(** The directory can be opened. *)
Definition opens (env : Env) (dir : string) : bool :=
  negb (is_Err (git_PlainOpen env dir)).

(** The error with which the history of [repo] fails to be produced, if
    it does: from [Head], from [Log], or from the call of [Next] that
    finds the iterator used up, which is reached when all its commits
    satisfy the loop condition. *)
Definition historyFailure (timeSince : time.Time) (repo : Repository) : option error :=
  match Head repo with
  | Err e => Some e
  | Ok ref =>
      match Log repo (Hash ref) with
      | Err e => Some e
      | Ok cIter =>
          if forallb (inWindow timeSince) (pending cIter) then Some (at_end cIter)
          else None
      end
  end.

(** The environment with another clock. *)
Definition withClock (env : Env) (clock : nat -> time.Time) : Env :=
  {| os_Stat := os_Stat env;
     syscall_Getwd := syscall_Getwd env;
     git_PlainOpen := git_PlainOpen env;
     time_Now := clock;
     map_range := map_range env |}.

(** Timestamps never increase along the walk. *)
Definition nonIncreasing (cs : list Commit) : Prop :=
  StronglySorted (fun c1 c2 => When (Author c2) <= When (Author c1)) cs.

(** ** Sample histories *)

Module Fixtures.

Definition commit (name msg : string) (when : time.Time) : Commit :=
  {| Author := {| Name := name; Email := name +:+ "@example.com"; When := when |};
     Message := msg |}.

(** A repository whose history can be read to its end. *)
Definition history (cs : list Commit) : Repository :=
  {| Head := Ok {| Hash := "HEAD" |};
     Log := fun _ => Ok {| pending := cs; at_end := io_EOF |} |}.

(** A repository whose history breaks off with [e] after [cs]. *)
Definition brokenHistory (cs : list Commit) (e : error) : Repository :=
  {| Head := Ok {| Hash := "HEAD" |};
     Log := fun _ => Ok {| pending := cs; at_end := e |} |}.

(** A repository without a current reference. *)
Definition unborn : Repository :=
  {| Head := Err ErrReferenceNotFound; Log := fun _ => Err ErrReferenceNotFound |}.

Definition Second : time.Duration := 1000000000.

(** The instant of the first reading of the clock. *)
Definition now : time.Time := 1000 * time.Hour.

(** A clock that stands still, and one that advances by a second from
    one reading to the next. *)
Definition frozen : nat -> time.Time := fun _ => now.
Definition ticking : nat -> time.Time := fun k => now + Z.of_nat k * Second.

Definition api : Repository :=
  history [commit "Jack" "add endpoint" (now - time.Hour);
           commit "Jack" "initial commit" (now - 200 * time.Hour)].

(** What [git.PlainOpen] finds. *)
Definition disk (dir : string) : Result Repository :=
  if String.eqb dir "work/api" then Ok api
  else if String.eqb dir "work/frontend" then Ok unborn
  else Err ErrRepositoryNotExists.

Definition env (clock : nat -> time.Time) : Env :=
  {| os_Stat := fun _ => Ok tt;
     syscall_Getwd := Ok "/home/dev/today";
     git_PlainOpen := disk;
     time_Now := clock;
     map_range := map_to_list |}.

Definition start : World := {| clock_reads := 0 |}.

(** The scenario of three commits at [now], an hour and 200 hours ago. *)
Definition proj : Repository :=
  history [commit "Jack" "fix bug" now;
           commit "Jill" ("add feature" +:+ LF +:+ "longer body") (now - time.Hour);
           commit "Jack" "initial commit" (now - 200 * time.Hour)].

(** Three commits at [now], one hour and 25 hours ago. *)
Definition threeCommits : list Commit :=
  [commit "Jack" "third" now;
   commit "Jack" "second" (now - time.Hour);
   commit "Jack" "first" (now - 25 * time.Hour)].

(** A repository whose only commit was made ten seconds ago. *)
Definition fresh : Repository :=
  history [commit "testUser" "TEST" (now - 10 * Second)].

(** A head commit dated an hour ahead of the clock. *)
Definition postdated : Repository :=
  history [commit "Jack" "from tomorrow" (now + time.Hour);
           commit "Jack" "initial commit" (now - 200 * time.Hour)].

(** A commit made 59.5 seconds before the first reading of the clock. *)
Definition borderline : Repository :=
  history [commit "Jack" "just in time" (now - 59 * Second - 500000000);
           commit "Jack" "initial commit" (now - 200 * time.Hour)].

End Fixtures.

(** ** Earlier revisions of [getCommitMessages] *)

(** The revision with [--short] and without [--author]: the message is
    appended before the successor is fetched, and the map is keyed by the
    path as it was given throughout. *)
Module WithShort.

Fixpoint commitLoop (short : bool) (timeSince : time.Time) (dir : string)
    (currentCommit : Commit) (rest : list Commit) (atEnd : error)
    (msgs : gmap string (list string)) {struct rest}
    : Result (gmap string (list string) * CommitIter) :=
  let commitTime := time.UTC (When (Author currentCommit)) in
  if time.After commitTime timeSince then
    let msgs :=
      if short then
        let '(firstLine, _, _) := strings.Cut (Message currentCommit) LF in
        appendMessage msgs dir firstLine
      else appendMessage msgs dir (Message currentCommit) in
    match rest with
    | [] => Err atEnd
    | nextCommit :: rest' =>
        commitLoop short timeSince dir nextCommit rest' atEnd msgs
    end
  else Ok (msgs, {| pending := rest; at_end := atEnd |}).

Definition getCommitMessages_dir (env : Env) (short : bool) (since : time.Duration)
    (dir : string) (repo : Repository) (st : gmap string (list string) * World)
    : Result (gmap string (list string) * World) :=
  let '(msgs, w) := st in
  let msgs := <[dir := []]> msgs in
  ref ← Head repo;
  cIter ← Log repo (Hash ref);
  let '(now, w) := readClock env w in
  let now := time.UTC now in
  '(currentCommit, cIter) ← Next cIter;
  let timeSince := time.Add now (time.neg since) in
  '(msgs, _) ← commitLoop short timeSince dir currentCommit
                 (pending cIter) (at_end cIter) msgs;
  mret (msgs, w).

Fixpoint getCommitMessages_range (env : Env) (short : bool) (since : time.Duration)
    (entries : list (string * Repository)) (st : gmap string (list string) * World)
    : Result (gmap string (list string) * World) :=
  match entries with
  | [] => Ok st
  | (dir, repo) :: rest =>
      st' ← getCommitMessages_dir env short since dir repo st;
      getCommitMessages_range env short since rest st'
  end.

Definition getCommitMessages (env : Env) (dirToRepo : gmap string Repository)
    (short : bool) (since : time.Duration) (w : World)
    : Result (gmap string (list string) * World) :=
  getCommitMessages_range env short since (map_range env dirToRepo) (∅, w).

End WithShort.

(** The revision that walks the whole history with [cIter.ForEach] and
    reads the clock for every commit; [short] is the package variable
    set from the flag. *)
Module ForEach.

(** go-git's [ForEach]: the callback is run on every commit until [Next]
    reports an error; [io.EOF] ends the walk without an error. *)
Fixpoint CommitIter_ForEach {S : Type} (cb : Commit -> S -> Result S)
    (rest : list Commit) (atEnd : error) (st : S) : Result S :=
  match rest with
  | [] => match atEnd with
          | io_EOF => Ok st
          | e => Err e
          end
  | c :: rest' =>
      st' ← cb c st;
      CommitIter_ForEach cb rest' atEnd st'
  end.

(** The function literal passed to [ForEach]. *)
Definition visit (env : Env) (short : bool) (since : time.Duration) (dir : string)
    (c : Commit) (st : gmap string (list string) * World)
    : Result (gmap string (list string) * World) :=
  let '(msgs, w) := st in
  let '(now, w) := readClock env w in
  let now := time.UTC now in
  let commitTime := time.UTC (When (Author c)) in
  let timeSince := time.Add now (time.neg since) in
  if time.After commitTime timeSince then
    if short then
      let '(firstLine, _, _) := strings.Cut (Message c) LF in
      Ok (appendMessage msgs dir firstLine, w)
    else Ok (appendMessage msgs dir (Message c), w)
  else Ok (msgs, w).

Definition getCommitMessages_dir (env : Env) (short : bool) (since : time.Duration)
    (dir : string) (repo : Repository) (st : gmap string (list string) * World)
    : Result (gmap string (list string) * World) :=
  let '(msgs, w) := st in
  let msgs := <[dir := []]> msgs in
  ref ← Head repo;
  cIter ← Log repo (Hash ref);
  CommitIter_ForEach (visit env short since dir) (pending cIter) (at_end cIter) (msgs, w).

Fixpoint getCommitMessages_range (env : Env) (short : bool) (since : time.Duration)
    (entries : list (string * Repository)) (st : gmap string (list string) * World)
    : Result (gmap string (list string) * World) :=
  match entries with
  | [] => Ok st
  | (dir, repo) :: rest =>
      st' ← getCommitMessages_dir env short since dir repo st;
      getCommitMessages_range env short since rest st'
  end.

Definition getCommitMessages (env : Env) (dirToRepo : gmap string Repository)
    (short : bool) (since : time.Duration) (w : World)
    : Result (gmap string (list string) * World) :=
  getCommitMessages_range env short since (map_range env dirToRepo) (∅, w).

End ForEach.

(** ** Further vocabulary and samples *)

(** [os.Stat] succeeds on the path and on its [.git] entry. *)
Definition tracked (env : Env) (p : string) : bool :=
  negb (is_Err (os_Stat env p)) && negb (is_Err (os_Stat env (p +:+ "/.git"))).

(** No line break occurs in the text. *)
Definition oneLine (msg : string) : Prop := strings.Contains msg LF = false.

(** The environment with another order of visiting maps. *)
Definition withRange (env : Env)
    (range : gmap string Repository -> list (string * Repository)) : Env :=
  {| os_Stat := os_Stat env;
     syscall_Getwd := syscall_Getwd env;
     git_PlainOpen := git_PlainOpen env;
     time_Now := time_Now env;
     map_range := range |}.

(** The messages of one directory processed on its own. *)
Definition messagesFor (env : Env) (author : string) (short : bool)
    (since : time.Duration) (dir : string) (repo : Repository) : Result (list string) :=
  match getCommitMessages_dir env author short since dir repo (∅, {| clock_reads := 0 |}) with
  | Ok (msgs, _) => Ok (messagesOf msgs dir)
  | Err e => Err e
  end.

Module Samples.

(** A disk on which [work/api] is a repository, [notes] a plain
    directory and nothing else exists. *)
Definition stat (p : string) : Result unit :=
  if String.eqb p "work/api" || String.eqb p "work/api/.git" || String.eqb p "notes"
  then Ok tt else Err (ErrOther "no such file or directory").

Definition env : Env :=
  {| os_Stat := stat;
     syscall_Getwd := Ok "/home/dev/today";
     git_PlainOpen := Fixtures.disk;
     time_Now := Fixtures.frozen;
     map_range := map_to_list |}.

(** The same, where the working directory cannot be determined. *)
Definition lost : Env :=
  {| os_Stat := stat;
     syscall_Getwd := Err (ErrOther "getwd: no such file or directory");
     git_PlainOpen := Fixtures.disk;
     time_Now := Fixtures.frozen;
     map_range := map_to_list |}.

(** A history whose middle commit carries an old author date. *)
Definition rebased : Repository :=
  Fixtures.history
    [Fixtures.commit "Jack" "fix bug" Fixtures.now;
     Fixtures.commit "Jill" "cherry-picked" (Fixtures.now - 300 * time.Hour);
     Fixtures.commit "Jack" "add feature" (Fixtures.now - time.Hour);
     Fixtures.commit "Jack" "initial commit" (Fixtures.now - 200 * time.Hour)].

(** A history that cannot be read beyond the commit of 200 hours ago. *)
Definition truncated : Repository :=
  Fixtures.brokenHistory
    [Fixtures.commit "Jack" "add endpoint" (Fixtures.now - time.Hour);
     Fixtures.commit "Jack" "initial commit" (Fixtures.now - 200 * time.Hour)]
    (ErrOther "object not found").

End Samples.

(** ** The map of messages *)

Section Messages.
Implicit Types (msgs : gmap string (list string)) (dir d msg : string)
  (xs : list string).

Lemma messagesOf_appendMessage msgs dir msg :
  messagesOf (appendMessage msgs dir msg) dir = messagesOf msgs dir ++ [msg].
Proof. unfold messagesOf, appendMessage. by rewrite lookup_insert_eq. Qed.

Lemma lookup_appendMessage_ne msgs dir d msg :
  dir ≠ d → appendMessage msgs dir msg !! d = msgs !! d.
Proof. intros. unfold appendMessage. by rewrite lookup_insert_ne. Qed.

Lemma appendMessages_snoc msgs dir xs msg :
  appendMessages msgs dir (xs ++ [msg]) = appendMessage (appendMessages msgs dir xs) dir msg.
Proof. unfold appendMessages. by rewrite foldl_app. Qed.

Lemma messagesOf_appendMessages msgs dir xs :
  messagesOf (appendMessages msgs dir xs) dir = messagesOf msgs dir ++ xs.
Proof.
  induction xs as [|x xs IH] using rev_ind.
  - by rewrite app_nil_r.
  - by rewrite appendMessages_snoc, messagesOf_appendMessage, IH, app_assoc.
Qed.

Lemma lookup_appendMessages_ne msgs dir d xs :
  dir ≠ d → appendMessages msgs dir xs !! d = msgs !! d.
Proof.
  intros Hne. unfold appendMessages. revert msgs.
  induction xs as [|x xs IH]; intros msgs; [done|].
  cbn. rewrite IH. by apply lookup_appendMessage_ne.
Qed.

Lemma lookup_appendMessages msgs dir xs :
  xs ≠ [] → appendMessages msgs dir xs !! dir = Some (messagesOf msgs dir ++ xs).
Proof.
  induction xs as [|x xs IH] using rev_ind; [done|]. intros _.
  rewrite appendMessages_snoc. unfold appendMessage at 1.
  rewrite lookup_insert_eq. f_equal.
  fold (messagesOf (appendMessages msgs dir xs) dir).
  by rewrite messagesOf_appendMessages, app_assoc.
Qed.

Lemma dom_appendMessages msgs dir xs :
  dom (appendMessages msgs dir xs) = if xs is [] then dom msgs else {[dir]} ∪ dom msgs.
Proof.
  unfold appendMessages. revert msgs.
  induction xs as [|x xs IH]; intros msgs; [done|].
  cbn. rewrite IH. unfold appendMessage. rewrite dom_insert_L.
  destruct xs; [done|]. by rewrite (assoc_L (∪)), (idemp_L (∪)).
Qed.
End Messages.

(** ** The selection loop *)

Section Loop.
Context (author : string) (short : bool) (timeSince : time.Time) (dir : string).

Lemma commitLoop_unfold cur rest atEnd msgs :
  commitLoop author short timeSince dir cur rest atEnd msgs =
  if inWindow timeSince cur then
    match rest with
    | [] => Err atEnd
    | nextCommit :: rest' =>
        commitLoop author short timeSince dir nextCommit rest' atEnd
          (if passesAuthor author cur
           then appendMessage msgs dir (shown short cur) else msgs)
    end
  else Ok (msgs, {| pending := rest; at_end := atEnd |}).
Proof.
  destruct rest as [|nextCommit rest']; cbn; unfold inWindow, passesAuthor, shown, firstLine;
    destruct (time.After _ _); try reflexivity.
  destruct (String.eqb author ""); cbn.
  - destruct short; [destruct (strings.Cut _ _) as [[? ?] ?]|]; reflexivity.
  - destruct (containsAuthor cur author); cbn; [|reflexivity].
    destruct short; [destruct (strings.Cut _ _) as [[? ?] ?]|]; reflexivity.
Qed.

(** The loop leaves at the first commit that fails its condition: the
    commits before it are appended, those after it stay unread. *)
Lemma commitLoop_stops pre c post cur rest atEnd msgs :
  cur :: rest = pre ++ c :: post →
  forallb (inWindow timeSince) pre = true →
  inWindow timeSince c = false →
  commitLoop author short timeSince dir cur rest atEnd msgs =
  Ok (appendMessages msgs dir (selected author short pre),
      {| pending := post; at_end := atEnd |}).
Proof.
  revert cur rest msgs. induction pre as [|p pre IH]; intros cur rest msgs Heq Hpre Hc.
  - cbn in Heq. injection Heq as -> ->.
    rewrite commitLoop_unfold, Hc. reflexivity.
  - cbn in Heq. injection Heq as -> ->.
    cbn in Hpre. apply andb_prop in Hpre as [Hp Hpre].
    rewrite commitLoop_unfold, Hp.
    destruct (pre ++ c :: post) as [|nextCommit rest'] eqn:Hrest.
    { by destruct pre. }
    rewrite (IH nextCommit rest' _ eq_refl Hpre Hc).
    unfold selected. cbn. by destruct (passesAuthor author p).
Qed.

(** When every commit satisfies the condition, the call of [Next] that
    finds the iterator used up ends the loop with its error. *)
Lemma commitLoop_exhausts cur rest atEnd msgs :
  forallb (inWindow timeSince) (cur :: rest) = true →
  commitLoop author short timeSince dir cur rest atEnd msgs = Err atEnd.
Proof.
  revert cur msgs. induction rest as [|nextCommit rest IH]; intros cur msgs Hall;
    cbn in Hall; apply andb_prop in Hall as [Hcur Hall];
    rewrite commitLoop_unfold, Hcur; [done|].
  by apply IH.
Qed.

(** Every walk is of one of the two kinds. *)
Lemma window_split (cs : list Commit) :
  forallb (inWindow timeSince) cs = true ∨
  ∃ pre c post, cs = pre ++ c :: post ∧
    forallb (inWindow timeSince) pre = true ∧ inWindow timeSince c = false.
Proof.
  induction cs as [|c cs IH]; [by left|].
  destruct (inWindow timeSince c) eqn:Hc.
  - destruct IH as [Hall|(pre & c' & post & -> & Hpre & Hc')].
    + left. cbn. by rewrite Hc.
    + right. exists (c :: pre), c', post. cbn. by rewrite Hc.
  - right. by exists [], c, cs.
Qed.
End Loop.

(** ** One directory *)

Section Directory.
Context (env : Env) (author : string) (short : bool) (since : time.Duration).
Implicit Types (msgs : gmap string (list string)) (w : World) (dir : string)
  (repo : Repository).

Lemma dir_base_fails dir repo msgs w e :
  getBaseDirectoryName env dir = Err e →
  getCommitMessages_dir env author short since dir repo (msgs, w) = Err e.
Proof. intros H. unfold getCommitMessages_dir. by rewrite H. Qed.

Lemma dir_head_fails dir repo msgs w sanitisedDir e :
  getBaseDirectoryName env dir = Ok sanitisedDir →
  Head repo = Err e →
  getCommitMessages_dir env author short since dir repo (msgs, w) = Err e.
Proof. intros H1 H2. unfold getCommitMessages_dir. by rewrite H1; cbn; rewrite H2. Qed.

Lemma dir_log_fails dir repo msgs w sanitisedDir ref e :
  getBaseDirectoryName env dir = Ok sanitisedDir →
  Head repo = Ok ref →
  Log repo (Hash ref) = Err e →
  getCommitMessages_dir env author short since dir repo (msgs, w) = Err e.
Proof.
  intros H1 H2 H3. unfold getCommitMessages_dir.
  by rewrite H1; cbn; rewrite H2; cbn; rewrite H3.
Qed.

Lemma dir_stops dir repo msgs w sanitisedDir ref atEnd pre c post :
  getBaseDirectoryName env dir = Ok sanitisedDir →
  Head repo = Ok ref →
  Log repo (Hash ref) = Ok {| pending := pre ++ c :: post; at_end := atEnd |} →
  forallb (inWindow (threshold env since w)) pre = true →
  inWindow (threshold env since w) c = false →
  getCommitMessages_dir env author short since dir repo (msgs, w) =
  Ok (appendMessages (<[sanitisedDir := []]> msgs) dir (selected author short pre), tick w).
Proof.
  intros H1 H2 H3 Hpre Hc. unfold getCommitMessages_dir.
  rewrite H1; cbn; rewrite H2; cbn; rewrite H3; cbn. unfold Next; cbn.
  destruct (pre ++ c :: post) as [|cur rest] eqn:Hwalk; [by destruct pre|]. cbn.
  fold (threshold env since w).
  by rewrite (commitLoop_stops author short _ dir pre c post cur rest).
Qed.

Lemma dir_exhausts dir repo msgs w sanitisedDir ref cIter :
  getBaseDirectoryName env dir = Ok sanitisedDir →
  Head repo = Ok ref →
  Log repo (Hash ref) = Ok cIter →
  forallb (inWindow (threshold env since w)) (pending cIter) = true →
  getCommitMessages_dir env author short since dir repo (msgs, w) = Err (at_end cIter).
Proof.
  intros H1 H2 H3 Hall. unfold getCommitMessages_dir.
  rewrite H1; cbn; rewrite H2; cbn; rewrite H3; cbn. unfold Next.
  destruct (pending cIter) as [|cur rest]; [done|]. cbn.
  fold (threshold env since w).
  by rewrite (commitLoop_exhausts author short _ dir cur rest).
Qed.

(** A directory that is processed reads the clock once. *)
Lemma dir_clock dir repo msgs w msgs' w' :
  getCommitMessages_dir env author short since dir repo (msgs, w) = Ok (msgs', w') →
  w' = tick w.
Proof.
  unfold getCommitMessages_dir.
  destruct (getBaseDirectoryName env dir); [cbn|done].
  destruct (Head repo); [cbn|done].
  destruct (Log repo _) as [cIter|]; [cbn|done].
  destruct (Next cIter) as [[cur cIter']|]; [cbn|done].
  destruct (commitLoop _ _ _ _ _ _ _ _) as [[m it]|]; [cbn|done].
  by intros [= _ <-].
Qed.
End Directory.

(** ** The loop over the directories *)

Arguments getCommitMessages_dir : simpl never.

Section Range.
Context (env : Env) (author : string) (short : bool) (since : time.Duration).

Lemma range_app before after st :
  getCommitMessages_range env author short since (before ++ after) st =
  st' ← getCommitMessages_range env author short since before st;
  getCommitMessages_range env author short since after st'.
Proof.
  revert st. induction before as [|[dir repo] before IH]; intros st; [done|].
  cbn. destruct (getCommitMessages_dir _ _ _ _ _ _ _) as [st'|]; [|done].
  cbn. apply IH.
Qed.

(** The error of the first directory that fails is the result. *)
Lemma range_fails before dir repo after st st1 e :
  getCommitMessages_range env author short since before st = Ok st1 →
  getCommitMessages_dir env author short since dir repo st1 = Err e →
  getCommitMessages_range env author short since (before ++ (dir, repo) :: after) st = Err e.
Proof. intros H1 H2. rewrite range_app, H1. cbn. by rewrite H2. Qed.

Lemma range_clock entries msgs w msgs' w' :
  getCommitMessages_range env author short since entries (msgs, w) = Ok (msgs', w') →
  clock_reads w' = (clock_reads w + length entries)%nat.
Proof.
  revert msgs w. induction entries as [|[dir repo] entries IH]; intros msgs w; cbn.
  - intros [= _ <-]. lia.
  - destruct (getCommitMessages_dir _ _ _ _ _ _ _) as [[m1 w1]|] eqn:Hdir; [|done].
    cbn. intros Hrest. apply IH in Hrest. apply dir_clock in Hdir as ->.
    cbn in Hrest. lia.
Qed.
End Range.


(** ** Substrings and first lines *)

Section Strings.
Implicit Types (s sub l r a b : string) (ch : ascii).

Lemma append_nil s : "" +:+ s = s.
Proof. reflexivity. Qed.

Lemma append_cons ch a b : String ch a +:+ b = String ch (a +:+ b).
Proof. reflexivity. Qed.

Lemma prefix_nil s : String.prefix "" s = true.
Proof. by destruct s. Qed.

Lemma prefix_cons ch ch' sub s :
  String.prefix (String ch sub) (String ch' s) =
  Ascii.eqb ch ch' && String.prefix sub s.
Proof.
  cbn [String.prefix]. destruct (ascii_dec ch ch') as [->|Hne].
  - by rewrite Ascii.eqb_refl.
  - apply Ascii.eqb_neq in Hne. by rewrite Hne.
Qed.

Lemma prefix_append sub r : String.prefix sub (sub +:+ r) = true.
Proof.
  induction sub as [|ch sub IH]; [apply prefix_nil|].
  by rewrite append_cons, prefix_cons, Ascii.eqb_refl.
Qed.

Lemma prefix_split sub s : String.prefix sub s = true → ∃ r, s = sub +:+ r.
Proof.
  revert s. induction sub as [|ch sub IH]; intros s.
  - intros _. by exists s.
  - destruct s as [|ch' s]; [done|]. rewrite prefix_cons.
    intros [->%Ascii.eqb_eq [r ->]%IH]%andb_prop. by exists r.
Qed.

Lemma Contains_unfold s sub :
  strings.Contains s sub =
  String.prefix sub s ||
  match s with EmptyString => false | String _ s' => strings.Contains s' sub end.
Proof. by destruct s. Qed.

(** [strings.Contains] is exact containment, byte for byte. *)
Lemma Contains_spec s sub :
  strings.Contains s sub = true ↔ ∃ l r, s = l +:+ sub +:+ r.
Proof.
  split.
  - induction s as [|ch s IH]; rewrite Contains_unfold;
      (intros [Hp|Hin]%orb_prop; [|try done]).
    + apply prefix_split in Hp as [r Hr]. by exists "", r.
    + apply prefix_split in Hp as [r Hr]. by exists "", r.
    + destruct (IH Hin) as (l & r & ->). by exists (String ch l), r.
  - intros (l & r & ->). induction l as [|ch l IH]; rewrite Contains_unfold.
    + by rewrite append_nil, prefix_append.
    + by rewrite append_cons, IH, orb_true_r.
Qed.

(** Containment tells upper case from lower case. *)
Example Contains_case :
  strings.Contains "testUser" "User" = true ∧ strings.Contains "testUser" "user" = false.
Proof. split; reflexivity. Qed.

Lemma prefix_LF ch s :
  String.prefix LF (String ch s) = Ascii.eqb (ascii_of_nat 10) ch.
Proof. unfold LF. by rewrite prefix_cons, prefix_nil, andb_true_r. Qed.

Lemma Cut_cons ch s sep :
  strings.Cut (String ch s) sep =
  if String.prefix sep (String ch s)
  then (EmptyString, strings.drop (String.length sep) (String ch s), true)
  else let '(before, after, found) := strings.Cut s sep in
       (String ch before, after, found).
Proof. reflexivity. Qed.

(** Without a line break the first line is the whole message. *)
Lemma firstLine_no_break s : strings.Contains s LF = false → firstLine s = s.
Proof.
  unfold firstLine. induction s as [|ch s IH]; [done|].
  rewrite Contains_unfold. intros [Hp Hin]%orb_false_elim.
  rewrite Cut_cons, Hp.
  specialize (IH Hin). destruct (strings.Cut s LF) as [[before after] found].
  cbn in *. by rewrite IH.
Qed.

(** The first line is the text before the first line break. *)
Lemma firstLine_break a b :
  strings.Contains a LF = false → firstLine (a +:+ LF +:+ b) = a.
Proof.
  unfold firstLine. induction a as [|ch a IH].
  - intros _. rewrite append_nil. unfold LF at 1. rewrite append_cons.
    by rewrite Cut_cons, prefix_LF.
  - rewrite Contains_unfold. intros [Hp Hin]%orb_false_elim.
    rewrite append_cons, Cut_cons. rewrite prefix_LF in Hp |- *. rewrite Hp.
    specialize (IH Hin). destruct (strings.Cut _ LF) as [[before after] found].
    cbn in *. by rewrite IH.
Qed.
End Strings.

(** ** Early termination *)

(** C3. As soon as the walk of a directory reaches a commit [c] whose
    timestamp is not strictly after the threshold, the loop stops: the
    directory gets the messages of the commits [pre] met before [c] and
    nothing else; the iterator is left with the commits [post] after [c]
    unread; and a history that differs only from [c] on gives the same
    result. *)
Theorem early_termination env author short since dir repo ref atEnd pre c post
    msgs w sanitisedDir :
  getBaseDirectoryName env dir = Ok sanitisedDir →
  Head repo = Ok ref →
  Log repo (Hash ref) = Ok {| pending := pre ++ c :: post; at_end := atEnd |} →
  forallb (inWindow (threshold env since w)) pre = true →
  inWindow (threshold env since w) c = false →
  getCommitMessages_dir env author short since dir repo (msgs, w) =
    Ok (appendMessages (<[sanitisedDir := []]> msgs) dir (selected author short pre),
        tick w)
  ∧ (∀ cur rest m, cur :: rest = pre ++ c :: post →
      commitLoop author short (threshold env since w) dir cur rest atEnd m =
        Ok (appendMessages m dir (selected author short pre),
            {| pending := post; at_end := atEnd |}))
  ∧ (∀ repo' ref' atEnd' c' post',
      Head repo' = Ok ref' →
      Log repo' (Hash ref') = Ok {| pending := pre ++ c' :: post'; at_end := atEnd' |} →
      inWindow (threshold env since w) c' = false →
      getCommitMessages_dir env author short since dir repo' (msgs, w) =
      getCommitMessages_dir env author short since dir repo (msgs, w)).
Proof.
  intros Hbase Hhead Hlog Hpre Hc. split; [|split].
  - by eapply dir_stops.
  - intros cur rest m Hwalk. by apply commitLoop_stops with c.
  - intros repo' ref' atEnd' c' post' Hhead' Hlog' Hc'.
    rewrite (dir_stops _ _ _ _ _ repo' _ _ _ _ _ _ _ _ Hbase Hhead' Hlog' Hpre Hc').
    by rewrite (dir_stops _ _ _ _ _ repo _ _ _ _ _ _ _ _ Hbase Hhead Hlog Hpre Hc).
Qed.

(** Of three commits made at [now], one hour and 25 hours ago, a lookback
    of two hours returns the first two. *)
Lemma early_termination_witness :
  getCommitMessages_dir (Fixtures.env Fixtures.frozen) "" false (2 * time.Hour) "proj"
    (Fixtures.history Fixtures.threeCommits) (∅, Fixtures.start) =
    Ok ({[ "proj" := ["third"; "second"] ]}, tick Fixtures.start).
Proof.
  refine (proj1 (early_termination (Fixtures.env Fixtures.frozen) "" false
           (2 * time.Hour) "proj" (Fixtures.history Fixtures.threeCommits)
           {| Hash := "HEAD" |} io_EOF (take 2 Fixtures.threeCommits)
           (Fixtures.commit "Jack" "first" (Fixtures.now - 25 * time.Hour)) []
           ∅ Fixtures.start "proj" _ _ _ _ _)); reflexivity.
Defined.

(** ** The author filter *)

(** C5. With an author filter set, a commit met before the loop stops is
    included exactly when its author name contains the filter text, byte
    for byte; the commits that do not are passed over and the walk goes
    on.  A filter found in the name of one such commit only yields that
    commit's message alone. *)
Theorem author_filter env author short since dir repo ref atEnd pre c post
    msgs w sanitisedDir :
  author ≠ "" →
  getBaseDirectoryName env dir = Ok sanitisedDir →
  Head repo = Ok ref →
  Log repo (Hash ref) = Ok {| pending := pre ++ c :: post; at_end := atEnd |} →
  forallb (inWindow (threshold env since w)) pre = true →
  inWindow (threshold env since w) c = false →
  (∀ k, passesAuthor author k = true ↔ ∃ l r, Name (Author k) = l +:+ author +:+ r)
  ∧ getCommitMessages_dir env author short since dir repo (msgs, w) =
      Ok (appendMessages (<[sanitisedDir := []]> msgs) dir
            (map (shown short) (List.filter (fun k => containsAuthor k author) pre)),
          tick w)
  ∧ (∀ k, List.filter (fun k => containsAuthor k author) pre = [k] →
      getCommitMessages_dir env author short since dir repo (msgs, w) =
        Ok (appendMessages (<[sanitisedDir := []]> msgs) dir [shown short k], tick w)).
Proof.
  intros Hauthor Hbase Hhead Hlog Hpre Hc.
  assert (Hpass : ∀ k, passesAuthor author k = containsAuthor k author).
  { intros k. unfold passesAuthor.
    destruct (String.eqb author "") eqn:E; [|done]. by apply String.eqb_eq in E. }
  assert (Hsel : selected author short pre =
                 map (shown short) (List.filter (fun k => containsAuthor k author) pre)).
  { unfold selected. f_equal. clear -Hpass.
    induction pre as [|p pre IH]; [done|]. cbn. by rewrite Hpass, IH. }
  split; [|split].
  - intros k. rewrite Hpass. apply Contains_spec.
  - rewrite <- Hsel. by eapply dir_stops.
  - intros k Hk. rewrite (dir_stops _ _ _ _ _ _ _ _ _ _ _ _ _ _ Hbase Hhead Hlog Hpre Hc).
    by rewrite Hsel, Hk.
Qed.

(** Filtering the sample project by [Jill] keeps her one commit, although
    a commit of Jack's is in the window too. *)
Lemma author_filter_witness :
  getCommitMessages_dir (Fixtures.env Fixtures.frozen) "Jill" true (12 * time.Hour) "proj"
    Fixtures.proj (∅, Fixtures.start) =
    Ok ({[ "proj" := ["add feature"] ]}, tick Fixtures.start).
Proof.
  refine (proj2 (proj2 (author_filter (Fixtures.env Fixtures.frozen) "Jill" true
           (12 * time.Hour) "proj" Fixtures.proj {| Hash := "HEAD" |} io_EOF
           [Fixtures.commit "Jack" "fix bug" Fixtures.now;
            Fixtures.commit "Jill" ("add feature" +:+ LF +:+ "longer body")
              (Fixtures.now - time.Hour)]
           (Fixtures.commit "Jack" "initial commit" (Fixtures.now - 200 * time.Hour)) []
           ∅ Fixtures.start "proj" _ _ _ _ _ _))
           (Fixtures.commit "Jill" ("add feature" +:+ LF +:+ "longer body")
              (Fixtures.now - time.Hour)) _); try reflexivity.
  discriminate.
Defined.

(** ** Truncating to the first line *)

(** C7. In short mode every included commit contributes the text before
    the first line break of its message, which is the whole message when
    there is no line break; otherwise it contributes its message as it
    stands, line breaks included. *)
Theorem truncate_mode env author since dir repo ref atEnd pre c post
    msgs w sanitisedDir :
  getBaseDirectoryName env dir = Ok sanitisedDir →
  Head repo = Ok ref →
  Log repo (Hash ref) = Ok {| pending := pre ++ c :: post; at_end := atEnd |} →
  forallb (inWindow (threshold env since w)) pre = true →
  inWindow (threshold env since w) c = false →
  (∀ a b, strings.Contains a LF = false → firstLine (a +:+ LF +:+ b) = a)
  ∧ (∀ a, strings.Contains a LF = false → firstLine a = a)
  ∧ getCommitMessages_dir env author true since dir repo (msgs, w) =
      Ok (appendMessages (<[sanitisedDir := []]> msgs) dir
            (map (fun k => firstLine (Message k)) (List.filter (passesAuthor author) pre)),
          tick w)
  ∧ getCommitMessages_dir env author false since dir repo (msgs, w) =
      Ok (appendMessages (<[sanitisedDir := []]> msgs) dir
            (map Message (List.filter (passesAuthor author) pre)),
          tick w).
Proof.
  intros Hbase Hhead Hlog Hpre Hc. split; [|split; [|split]].
  - apply firstLine_break.
  - apply firstLine_no_break.
  - by rewrite (dir_stops _ _ _ _ _ _ _ _ _ _ _ _ _ _ Hbase Hhead Hlog Hpre Hc).
  - by rewrite (dir_stops _ _ _ _ _ _ _ _ _ _ _ _ _ _ Hbase Hhead Hlog Hpre Hc).
Qed.

(** The sample project with [--since 12h --short]. *)
Lemma truncate_mode_witness :
  firstLine ("A" +:+ LF +:+ "B") = "A"
  ∧ getCommitMessages_dir (Fixtures.env Fixtures.frozen) "" true (12 * time.Hour) "proj"
      Fixtures.proj (∅, Fixtures.start) =
      Ok ({[ "proj" := ["fix bug"; "add feature"] ]}, tick Fixtures.start)
  ∧ getCommitMessages_dir (Fixtures.env Fixtures.frozen) "" false (12 * time.Hour) "proj"
      Fixtures.proj (∅, Fixtures.start) =
      Ok ({[ "proj" := ["fix bug"; "add feature" +:+ LF +:+ "longer body"] ]},
          tick Fixtures.start).
Proof.
  pose proof (truncate_mode (Fixtures.env Fixtures.frozen) "" (12 * time.Hour) "proj"
                Fixtures.proj {| Hash := "HEAD" |} io_EOF
                [Fixtures.commit "Jack" "fix bug" Fixtures.now;
                 Fixtures.commit "Jill" ("add feature" +:+ LF +:+ "longer body")
                   (Fixtures.now - time.Hour)]
                (Fixtures.commit "Jack" "initial commit" (Fixtures.now - 200 * time.Hour))
                [] ∅ Fixtures.start "proj"
                eq_refl eq_refl eq_refl eq_refl eq_refl) as (Hcut & _ & Hshort & Hfull).
  split; [|split].
  - exact (Hcut "A" "B" eq_refl).
  - exact Hshort.
  - exact Hfull.
Defined.

(** ** A walk used up inside the window *)

(** C10. The loop fetches the successor before it deals with the current
    commit.  So when every commit of a directory's walk is strictly after
    the threshold, the call of [Next] that finds the iterator used up
    ends [getCommitMessages] with the iterator's error, and with it go
    the messages gathered so far, those of the directories before
    included. *)
Theorem exhausted_walk_fails env dirToRepo author short since w before dir repo after
    msgs1 w1 sanitisedDir ref cIter :
  map_range env dirToRepo = before ++ (dir, repo) :: after →
  getCommitMessages_range env author short since before (∅, w) = Ok (msgs1, w1) →
  getBaseDirectoryName env dir = Ok sanitisedDir →
  Head repo = Ok ref →
  Log repo (Hash ref) = Ok cIter →
  forallb (inWindow (threshold env since w1)) (pending cIter) = true →
  getCommitMessages env dirToRepo author short since w = Err (at_end cIter).
Proof.
  intros Horder Hbefore Hbase Hhead Hlog Hall. unfold getCommitMessages.
  rewrite Horder. eapply range_fails; [exact Hbefore|].
  by eapply dir_exhausts.
Qed.

(** The sample project and a repository made ten seconds ago: the two
    messages found in the first are lost to the end of the second. *)
Lemma exhausted_walk_fails_witness :
  getCommitMessages_range (Fixtures.env Fixtures.frozen) "" true (12 * time.Hour)
    [("a", Fixtures.proj)] (∅, Fixtures.start) =
    Ok ({[ "a" := ["fix bug"; "add feature"] ]}, tick Fixtures.start)
  ∧ getCommitMessages (Fixtures.env Fixtures.frozen)
      {[ "a" := Fixtures.proj; "b" := Fixtures.fresh ]} "" true (12 * time.Hour)
      Fixtures.start = Err io_EOF.
Proof.
  split; [reflexivity|].
  refine (exhausted_walk_fails (Fixtures.env Fixtures.frozen)
            {[ "a" := Fixtures.proj; "b" := Fixtures.fresh ]} "" true (12 * time.Hour)
            Fixtures.start [("a", Fixtures.proj)] "b" Fixtures.fresh []
            {[ "a" := ["fix bug"; "add feature"] ]} (tick Fixtures.start) "b"
            {| Hash := "HEAD" |}
            {| pending := [Fixtures.commit "testUser" "TEST"
                             (Fixtures.now - 10 * Fixtures.Second)];
               at_end := io_EOF |} _ _ _ _ _ _); reflexivity.
Defined.

(** ** Failures *)

Lemma getRepositories_from_fails env repos before dir after e :
  forallb (opens env) before = true →
  git_PlainOpen env dir = Err e →
  getRepositories_from env repos (before ++ dir :: after) = Err e.
Proof.
  revert repos. induction before as [|d before IH]; intros repos Hbefore Hdir; cbn.
  - unfold openGitDir. by rewrite Hdir.
  - cbn in Hbefore. apply andb_prop in Hbefore as [Hd Hbefore].
    unfold opens, openGitDir in *. destruct (git_PlainOpen env d); [|done].
    by apply IH.
Qed.

Lemma historyFailure_dir env author short since dir repo msgs w sanitisedDir e :
  getBaseDirectoryName env dir = Ok sanitisedDir →
  historyFailure (threshold env since w) repo = Some e →
  getCommitMessages_dir env author short since dir repo (msgs, w) = Err e.
Proof.
  intros Hbase. unfold historyFailure.
  destruct (Head repo) as [ref|e'] eqn:Hhead.
  - destruct (Log repo (Hash ref)) as [cIter|e'] eqn:Hlog.
    + destruct (forallb _ _) eqn:Hall; [|done]. intros [= <-]. by eapply dir_exhausts.
    + intros [= <-]. by eapply dir_log_fails.
  - intros [= <-]. by eapply dir_head_fails.
Qed.

(** C9. When a directory cannot be opened, [getRepositories] returns its
    error and [main] ends with it; when the history of a directory cannot
    be produced (its head, its log, or advancing its iterator fails),
    [getCommitMessages] returns that error and no mapping, whatever the
    directories before it gave, and [main] ends with the error. *)
Theorem failure_aborts_run env author short since args w e :
  args ≠ [] →
  validatePaths env args = Ok tt →
  (∀ before dir after,
      args = before ++ dir :: after →
      forallb (opens env) before = true →
      git_PlainOpen env dir = Err e →
      getRepositories env args = Err e ∧ main env author short since args w = Failed e)
  ∧ (∀ dirToRepo before dir repo after msgs1 w1 sanitisedDir,
      map_range env dirToRepo = before ++ (dir, repo) :: after →
      getCommitMessages_range env author short since before (∅, w) = Ok (msgs1, w1) →
      getBaseDirectoryName env dir = Ok sanitisedDir →
      historyFailure (threshold env since w1) repo = Some e →
      getCommitMessages env dirToRepo author short since w = Err e)
  ∧ (∀ repos,
      getRepositories env args = Ok repos →
      getCommitMessages env (buildDirToRepo args repos) author short since w = Err e →
      main env author short since args w = Failed e).
Proof.
  intros Hargs Hvalid.
  assert (Hlen : Nat.eqb (length args) 0 = false) by by destruct args.
  split; [|split].
  - intros before dir after -> Hbefore Hdir.
    assert (Hrepos : getRepositories env (before ++ dir :: after) = Err e)
      by by apply getRepositories_from_fails.
    split; [done|]. unfold main. by rewrite Hlen, Hvalid, Hrepos.
  - intros dirToRepo before dir repo after msgs1 w1 sanitisedDir Horder Hbefore Hbase Hfail.
    unfold getCommitMessages. rewrite Horder.
    eapply range_fails; [exact Hbefore|]. by eapply historyFailure_dir.
  - intros repos Hrepos Hmsgs. unfold main. by rewrite Hlen, Hvalid, Hrepos, Hmsgs.
Qed.

(** [today work/api work/frontend], where [work/frontend] has no current
    reference: the message found in [work/api] is not printed.  And
    [today work/api work/missing], where [work/missing] does not open. *)
Lemma failure_aborts_run_witness :
  getCommitMessages_range (Fixtures.env Fixtures.frozen) "" false (12 * time.Hour)
    [("work/api", Fixtures.api)] (∅, Fixtures.start) =
    Ok ({[ "api" := []; "work/api" := ["add endpoint"] ]}, tick Fixtures.start)
  ∧ main (Fixtures.env Fixtures.frozen) "" false (12 * time.Hour)
      ["work/api"; "work/frontend"] Fixtures.start = Failed ErrReferenceNotFound
  ∧ main (Fixtures.env Fixtures.frozen) "" false (12 * time.Hour)
      ["work/api"; "work/missing"] Fixtures.start = Failed ErrRepositoryNotExists.
Proof.
  split; [reflexivity|]. split.
  - pose proof (failure_aborts_run (Fixtures.env Fixtures.frozen) "" false (12 * time.Hour)
                  ["work/api"; "work/frontend"] Fixtures.start ErrReferenceNotFound
                  ltac:(discriminate) eq_refl) as (_ & Hwalk & Hmain).
    apply (Hmain [Fixtures.api; Fixtures.unborn] eq_refl).
    exact (Hwalk (buildDirToRepo ["work/api"; "work/frontend"] [Fixtures.api; Fixtures.unborn])
             [("work/api", Fixtures.api)] "work/frontend" Fixtures.unborn []
             {[ "api" := []; "work/api" := ["add endpoint"] ]} (tick Fixtures.start)
             "frontend" eq_refl eq_refl eq_refl eq_refl).
  - pose proof (failure_aborts_run (Fixtures.env Fixtures.frozen) "" false (12 * time.Hour)
                  ["work/api"; "work/missing"] Fixtures.start ErrRepositoryNotExists
                  ltac:(discriminate) eq_refl) as (Hopen & _ & _).
    exact (proj2 (Hopen ["work/api"] "work/missing" [] eq_refl eq_refl eq_refl)).
Defined.

(** A history that breaks off inside the window fails the run with the
    error of the iterator. *)
Example broken_history_fails :
  getCommitMessages (Fixtures.env Fixtures.frozen)
    {[ "today" := Fixtures.brokenHistory
                    [Fixtures.commit "Jack" "fix bug" Fixtures.now]
                    (ErrOther "object not found") ]}
    "" false (12 * time.Hour) Fixtures.start = Err (ErrOther "object not found").
Proof. reflexivity. Qed.

(** ** The boundary of the window *)

(** C6, as the code has it.  The comparison with the threshold is strict.
    With a lookback of zero the threshold is the instant read from the
    clock, and a history whose head commit is not dated after that
    instant, be it dated at that very instant, yields the empty sequence,
    whatever the commits after the head. *)
Theorem zero_lookback env author short dir repo ref c rest atEnd msgs w sanitisedDir :
  getBaseDirectoryName env dir = Ok sanitisedDir →
  Head repo = Ok ref →
  Log repo (Hash ref) = Ok {| pending := c :: rest; at_end := atEnd |} →
  When (Author c) <= time_Now env (clock_reads w) →
  threshold env 0 w = time_Now env (clock_reads w)
  ∧ inWindow (threshold env 0 w) c = false
  ∧ getCommitMessages_dir env author short 0 dir repo (msgs, w) =
      Ok (<[sanitisedDir := []]> msgs, tick w)
  ∧ messagesOf (<[sanitisedDir := []]> msgs) sanitisedDir = [].
Proof.
  intros Hbase Hhead Hlog Hwhen.
  assert (Hth : threshold env 0 w = time_Now env (clock_reads w)).
  { unfold threshold, time.Add, time.UTC.
    change (time.neg 0) with 0. apply Z.add_0_r. }
  assert (Hc : inWindow (threshold env 0 w) c = false).
  { rewrite Hth. unfold inWindow, time.After, time.UTC. by apply Z.ltb_ge. }
  split; [done|]. split; [done|]. split.
  - by rewrite (dir_stops env author short 0 dir repo msgs w sanitisedDir ref atEnd
                  [] c rest Hbase Hhead Hlog eq_refl Hc).
  - unfold messagesOf. by rewrite lookup_insert_eq.
Qed.

(** A commit dated at the very instant the clock shows is left out. *)
Lemma zero_lookback_witness :
  getCommitMessages_dir (Fixtures.env Fixtures.frozen) "" true 0 "proj" Fixtures.proj
    (∅, Fixtures.start) = Ok ({[ "proj" := [] ]}, tick Fixtures.start).
Proof.
  refine (proj1 (proj2 (proj2 (zero_lookback (Fixtures.env Fixtures.frozen) "" true "proj"
            Fixtures.proj {| Hash := "HEAD" |}
            (Fixtures.commit "Jack" "fix bug" Fixtures.now)
            [Fixtures.commit "Jill" ("add feature" +:+ LF +:+ "longer body")
               (Fixtures.now - time.Hour);
             Fixtures.commit "Jack" "initial commit" (Fixtures.now - 200 * time.Hour)]
            io_EOF ∅ Fixtures.start "proj" eq_refl eq_refl eq_refl _)))).
  vm_compute. discriminate.
Defined.

(** A head commit dated an hour ahead of the clock is strictly after the
    threshold of a zero lookback, and is selected. *)
Lemma zero_lookback_postdated :
  getCommitMessages (Fixtures.env Fixtures.frozen) {[ "today" := Fixtures.postdated ]}
    "" true 0 Fixtures.start =
    Ok ({[ "today" := ["from tomorrow"] ]}, tick Fixtures.start)
  ∧ messagesOf {[ "today" := ["from tomorrow"] ]} "today" ≠ [].
Proof. split; [reflexivity|discriminate]. Qed.

(** ** The clock *)

Lemma withClock_dir env clock author short since dir repo msgs w :
  clock (clock_reads w) = time_Now env (clock_reads w) →
  getCommitMessages_dir (withClock env clock) author short since dir repo (msgs, w) =
  getCommitMessages_dir env author short since dir repo (msgs, w).
Proof.
  intros Hclock. unfold getCommitMessages_dir, getBaseDirectoryName, readClock.
  cbn. by rewrite Hclock.
Qed.

(** C8, as the code has it.  The clock is read once for each directory,
    when its walk starts: after the directories [before], the reading
    numbered by their count is the one that [dir] is compared with, all
    its commits alike; no other reading of the clock bears on the result
    for [dir], and the next directory reads the clock anew. *)
Theorem threshold_per_directory env author short since before dir repo after
    msgs w msgs1 w1 :
  getCommitMessages_range env author short since before (msgs, w) = Ok (msgs1, w1) →
  clock_reads w1 = (clock_reads w + length before)%nat
  ∧ getCommitMessages_range env author short since (before ++ (dir, repo) :: after)
      (msgs, w) =
      (st' ← getCommitMessages_dir env author short since dir repo (msgs1, w1);
       getCommitMessages_range env author short since after st')
  ∧ (∀ clock, clock (clock_reads w1) = time_Now env (clock_reads w1) →
      getCommitMessages_dir (withClock env clock) author short since dir repo (msgs1, w1) =
      getCommitMessages_dir env author short since dir repo (msgs1, w1))
  ∧ (∀ msgs2 w2,
      getCommitMessages_dir env author short since dir repo (msgs1, w1) = Ok (msgs2, w2) →
      w2 = tick w1).
Proof.
  intros Hbefore. split; [|split; [|split]].
  - by eapply range_clock.
  - by rewrite range_app, Hbefore.
  - intros clock Hclock. by apply withClock_dir.
  - intros msgs2 w2. apply dir_clock.
Qed.

(** After the sample project, the second directory starts from the
    world in which the clock has been read once. *)
Lemma threshold_per_directory_witness :
  getCommitMessages_range (Fixtures.env Fixtures.ticking) "" true time.Minute
    [("a", Fixtures.proj); ("b", Fixtures.borderline)] (∅, Fixtures.start) =
  (st' ← getCommitMessages_dir (Fixtures.env Fixtures.ticking) "" true time.Minute
           "b" Fixtures.borderline ({[ "a" := ["fix bug"] ]}, tick Fixtures.start);
   Ok st').
Proof.
  exact (proj1 (proj2 (threshold_per_directory (Fixtures.env Fixtures.ticking) "" true
           time.Minute [("a", Fixtures.proj)] "b" Fixtures.borderline []
           ∅ Fixtures.start {[ "a" := ["fix bug"] ]} (tick Fixtures.start) eq_refl))).
Defined.

(** With a clock that advances by a second between the two readings, the
    commit of the second directory is strictly after the threshold that
    the first directory was compared with, yet it is left out: the second
    directory has a threshold of its own. *)
Lemma threshold_not_shared :
  getCommitMessages (Fixtures.env Fixtures.ticking)
    {[ "a" := Fixtures.proj; "b" := Fixtures.borderline ]} "" true time.Minute
    Fixtures.start =
    Ok ({[ "a" := ["fix bug"]; "b" := [] ]}, {| clock_reads := 2 |})
  ∧ inWindow (threshold (Fixtures.env Fixtures.ticking) time.Minute Fixtures.start)
      (Fixtures.commit "Jack" "just in time"
         (Fixtures.now - 59 * Fixtures.Second - 500000000)) = true
  ∧ getCommitMessages (Fixtures.env Fixtures.frozen)
      {[ "a" := Fixtures.proj; "b" := Fixtures.borderline ]} "" true time.Minute
      Fixtures.start =
      Ok ({[ "a" := ["fix bug"]; "b" := ["just in time"] ]}, {| clock_reads := 2 |}).
Proof. repeat split; reflexivity. Qed.

(** ** When a run succeeds *)

(** The loop ends well only by meeting a commit that fails its condition. *)
Lemma commitLoop_Ok_inv author short timeSince dir cur rest atEnd msgs msgs' cIter :
  commitLoop author short timeSince dir cur rest atEnd msgs = Ok (msgs', cIter) →
  ∃ pre c post,
    cur :: rest = pre ++ c :: post ∧
    forallb (inWindow timeSince) pre = true ∧
    inWindow timeSince c = false ∧
    msgs' = appendMessages msgs dir (selected author short pre) ∧
    cIter = {| pending := post; at_end := atEnd |}.
Proof.
  intros Hloop.
  destruct (window_split timeSince (cur :: rest)) as [Hall|(pre & c & post & Hwalk & Hpre & Hc)].
  - by rewrite (commitLoop_exhausts _ _ _ _ _ _ _ _ Hall) in Hloop.
  - rewrite (commitLoop_stops _ _ _ _ _ _ _ _ _ _ _ Hwalk Hpre Hc) in Hloop.
    injection Hloop as <- <-. by exists pre, c, post.
Qed.

Lemma dir_Ok_inv env author short since dir repo msgs w msgs' w' :
  getCommitMessages_dir env author short since dir repo (msgs, w) = Ok (msgs', w') →
  ∃ sanitisedDir pre,
    getBaseDirectoryName env dir = Ok sanitisedDir ∧
    msgs' = appendMessages (<[sanitisedDir := []]> msgs) dir (selected author short pre) ∧
    w' = tick w.
Proof.
  unfold getCommitMessages_dir.
  destruct (getBaseDirectoryName env dir) as [sanitisedDir|]; [cbn|done].
  destruct (Head repo); [cbn|done].
  destruct (Log repo _) as [cIter|]; [cbn|done].
  destruct (Next cIter) as [[cur cIter']|]; [cbn|done].
  destruct (commitLoop _ _ _ _ _ _ _ _) as [[m it]|] eqn:Hloop; [cbn|done].
  intros [= <- <-].
  apply commitLoop_Ok_inv in Hloop as (pre & _ & _ & _ & _ & _ & -> & _).
  by exists sanitisedDir, pre.
Qed.

(** Keys are never removed from the mapping. *)
Lemma range_dom_mono env author short since entries msgs w msgs' w' :
  getCommitMessages_range env author short since entries (msgs, w) = Ok (msgs', w') →
  dom msgs ⊆ dom msgs'.
Proof.
  revert msgs w. induction entries as [|[dir repo] entries IH]; intros msgs w; cbn.
  - by intros [= <- _].
  - destruct (getCommitMessages_dir _ _ _ _ _ _ _) as [[m1 w1]|] eqn:Hdir; [cbn|done].
    intros Hrest%IH. apply dir_Ok_inv in Hdir as (sd & pre & _ & -> & _).
    rewrite dom_appendMessages, dom_insert_L in Hrest.
    destruct (selected author short pre); set_solver.
Qed.

(** When the run succeeds, the base name of every directory is a key of
    the mapping. *)
Lemma base_names_present env author short since entries msgs w msgs' w' dir repo :
  getCommitMessages_range env author short since entries (msgs, w) = Ok (msgs', w') →
  (dir, repo) ∈ entries →
  ∃ sanitisedDir, getBaseDirectoryName env dir = Ok sanitisedDir ∧ sanitisedDir ∈ dom msgs'.
Proof.
  revert msgs w. induction entries as [|[d r] entries IH]; intros msgs w; cbn.
  - intros _ Hin. by apply elem_of_nil in Hin.
  - destruct (getCommitMessages_dir _ _ _ _ _ _ _) as [[m1 w1]|] eqn:Hdir; [cbn|done].
    intros Hrest [[= -> ->]|Hin]%elem_of_cons; [|by eapply IH].
    apply dir_Ok_inv in Hdir as (sd & pre & Hbase & -> & _).
    exists sd. split; [done|]. apply range_dom_mono in Hrest.
    rewrite dom_appendMessages, dom_insert_L in Hrest.
    destruct (selected author short pre); set_solver.
Qed.

(** Along a walk of non-increasing timestamps the commits strictly after
    the threshold are those met before the loop stops. *)
Lemma in_window_prefix timeSince pre c post :
  nonIncreasing (pre ++ c :: post) →
  forallb (inWindow timeSince) pre = true →
  inWindow timeSince c = false →
  List.filter (inWindow timeSince) (pre ++ c :: post) = pre.
Proof.
  intros Hsorted Hpre Hc.
  apply StronglySorted_app_1_r, StronglySorted_cons in Hsorted as [Hpost _].
  rewrite List.filter_app, (List.forallb_filter_id _ _ Hpre). cbn. rewrite Hc.
  replace (List.filter (inWindow timeSince) post) with (@nil Commit); [by rewrite app_nil_r|].
  symmetry. induction Hpost as [|p post Hp _ IH]; [done|]. cbn.
  unfold inWindow, time.After, time.UTC in *.
  apply Z.ltb_ge in Hc. rewrite (proj2 (Z.ltb_ge _ _)); [exact IH|lia].
Qed.

Lemma filter_no_author cs : List.filter (passesAuthor "") cs = cs.
Proof. induction cs as [|c cs IH]; [done|]. cbn. by rewrite IH. Qed.

(** Without an author filter, a walk of non-increasing timestamps that
    reaches a commit outside the window gives as many messages as it has
    commits strictly after the threshold. *)
Lemma selection_count env short since dir repo ref atEnd pre c post w sanitisedDir :
  getBaseDirectoryName env dir = Ok sanitisedDir →
  Head repo = Ok ref →
  Log repo (Hash ref) = Ok {| pending := pre ++ c :: post; at_end := atEnd |} →
  nonIncreasing (pre ++ c :: post) →
  forallb (inWindow (threshold env since w)) pre = true →
  inWindow (threshold env since w) c = false →
  ∃ msgs', getCommitMessages_dir env "" short since dir repo (∅, w) = Ok (msgs', tick w) ∧
    length (messagesOf msgs' dir) =
    length (List.filter (inWindow (threshold env since w)) (pre ++ c :: post)).
Proof.
  intros Hbase Hhead Hlog Hsorted Hpre Hc. eexists. split; [by eapply dir_stops|].
  rewrite messagesOf_appendMessages, in_window_prefix by done.
  unfold messagesOf, selected.
  rewrite filter_no_author, List.length_app, List.length_map, lookup_insert.
  case_decide; [done|]. by rewrite lookup_empty.
Qed.

(** An author filter found in no name, on a walk that reaches a commit
    outside the window, appends nothing. *)
Lemma no_author_match env author short since dir repo ref atEnd pre c post msgs w
    sanitisedDir :
  getBaseDirectoryName env dir = Ok sanitisedDir →
  Head repo = Ok ref →
  Log repo (Hash ref) = Ok {| pending := pre ++ c :: post; at_end := atEnd |} →
  forallb (inWindow (threshold env since w)) pre = true →
  inWindow (threshold env since w) c = false →
  forallb (fun k => negb (passesAuthor author k)) pre = true →
  getCommitMessages_dir env author short since dir repo (msgs, w) =
    Ok (<[sanitisedDir := []]> msgs, tick w).
Proof.
  intros Hbase Hhead Hlog Hpre Hc Hnone.
  rewrite (dir_stops _ _ _ _ _ _ _ _ _ _ _ _ _ _ Hbase Hhead Hlog Hpre Hc).
  replace (selected author short pre) with (@nil string); [done|].
  unfold selected. clear -Hnone. induction pre as [|p pre IH]; [done|].
  cbn in *. apply andb_prop in Hnone as [Hp Hnone].
  apply negb_true_iff in Hp. rewrite Hp. by apply IH.
Qed.

(** ** Where the code departs from its description *)

(** C1. The one commit of the repository is strictly after the threshold,
    yet [getCommitMessages] returns [io.EOF] and no sequence. *)
Theorem fresh_history_fails :
  length (List.filter
            (inWindow (threshold (Fixtures.env Fixtures.frozen) time.Minute Fixtures.start))
            [Fixtures.commit "testUser" "TEST" (Fixtures.now - 10 * Fixtures.Second)]) = 1%nat
  ∧ getCommitMessages (Fixtures.env Fixtures.frozen) {[ "today" := Fixtures.fresh ]}
      "" true time.Minute Fixtures.start = Err io_EOF.
Proof. split; reflexivity. Qed.

(** C2. For the directory [work/api] the mapping has two entries: the
    base name with the empty sequence, and the path as it was given with
    the message. *)
Theorem path_key_differs :
  getCommitMessages (Fixtures.env Fixtures.frozen) {[ "work/api" := Fixtures.api ]}
    "" false (12 * time.Hour) Fixtures.start =
    Ok ({[ "api" := []; "work/api" := ["add endpoint"] ]}, tick Fixtures.start)
  ∧ size ({[ "api" := []; "work/api" := ["add endpoint"] ]} : gmap string (list string))
    = 2%nat.
Proof. split; reflexivity. Qed.

(** C4. The author filter is found in no name, the one commit is in the
    window, and [getCommitMessages] returns [io.EOF], not an empty
    sequence. *)
Theorem unmatched_author_fails :
  strings.Contains "testUser" "INVALID_COMMIT_AUTHOR" = false
  ∧ getCommitMessages (Fixtures.env Fixtures.frozen) {[ "today" := Fixtures.fresh ]}
      "INVALID_COMMIT_AUTHOR" true time.Minute Fixtures.start = Err io_EOF.
Proof. split; reflexivity. Qed.

#[local] Set Warnings "-clear-no-such-hyp".

(** ** Validating the arguments *)

Lemma validatePaths_tracked env paths :
  validatePaths env paths = Ok tt ↔ forallb (tracked env) paths = true.
Proof.
  induction paths as [|p paths IH]; [done|]. cbn. unfold tracked at 1.
  destruct (os_Stat env p); cbn; [|done].
  destruct (os_Stat env (p +:+ "/.git")); cbn; [|done].
  exact IH.
Qed.

(** [validatePaths] accepts exactly the lists of which every path exists
    and holds a [.git] entry, the empty list among them; in every other
    case the error is one of its two messages about some path of the
    list. *)
Theorem validatePaths_accepts env paths :
  (validatePaths env paths = Ok tt ↔ forallb (tracked env) paths = true)
  ∧ (∀ e, validatePaths env paths = Err e →
      ∃ p, p ∈ paths ∧ tracked env p = false ∧
           (e = ErrOther ("expected directory, but got " +:+ p +:+ LF) ∨
            e = ErrOther (p +:+ " is not tracked by git"))).
Proof.
  split; [apply validatePaths_tracked|].
  induction paths as [|p paths IH]; [done|]. cbn. intros e.
  destruct (os_Stat env p) eqn:Hp.
  - destruct (os_Stat env (p +:+ "/.git")) eqn:Hgit.
    + intros (q & Hq & Hrest)%IH. exists q. split; [by right|done].
    + intros [= <-]. exists p. unfold tracked. rewrite Hp, Hgit.
      split; [by left|]. split; [done|by right].
  - intros [= <-]. exists p. unfold tracked. rewrite Hp.
    split; [by left|]. split; [done|by left].
Qed.

(** The error of [validatePaths] names the first path that is not
    accepted: as not being a directory when the path itself cannot be
    examined, as not tracked by git when its [.git] entry cannot. *)
Theorem validatePaths_first_offender env before p after :
  forallb (tracked env) before = true →
  tracked env p = false →
  validatePaths env (before ++ p :: after) =
    Err (ErrOther (if is_Err (os_Stat env p)
                   then "expected directory, but got " +:+ p +:+ LF
                   else p +:+ " is not tracked by git")).
Proof.
  intros Hbefore Hp. induction before as [|d before IH]; cbn.
  - unfold tracked in Hp. destruct (os_Stat env p); cbn in *; [|done].
    by destruct (os_Stat env (p +:+ "/.git")).
  - cbn in Hbefore. apply andb_prop in Hbefore as [Hd Hbefore]. unfold tracked in Hd.
    destruct (os_Stat env d); cbn in Hd; [|done].
    destruct (os_Stat env (d +:+ "/.git")); cbn in Hd; [|done].
    by apply IH.
Qed.

Lemma validatePaths_first_offender_witness :
  validatePaths Samples.env ["work/api"; "notes"; "nowhere"] =
    Err (ErrOther "notes is not tracked by git")
  ∧ validatePaths Samples.env ["work/api"; "nowhere"; "notes"] =
    Err (ErrOther ("expected directory, but got nowhere" +:+ LF)).
Proof.
  split.
  - exact (validatePaths_first_offender Samples.env ["work/api"] "notes" ["nowhere"]
             eq_refl eq_refl).
  - exact (validatePaths_first_offender Samples.env ["work/api"] "nowhere" ["notes"]
             eq_refl eq_refl).
Defined.

(** ** Opening the repositories *)

Lemma getRepositories_from_Ok env acc dirs repos :
  getRepositories_from env acc dirs = Ok repos ↔
  ∃ opened, repos = acc ++ opened ∧
            Forall2 (fun dir repo => git_PlainOpen env dir = Ok repo) dirs opened.
Proof.
  revert acc. induction dirs as [|dir dirs IH]; intros acc; cbn.
  - split.
    + intros [= <-]. exists []. by rewrite app_nil_r.
    + intros (opened & -> & Hall). apply Forall2_nil_inv_l in Hall as ->.
      by rewrite app_nil_r.
  - unfold openGitDir. destruct (git_PlainOpen env dir) as [repo|e] eqn:Hdir.
    + rewrite IH. split.
      * intros (opened & -> & Hall). exists (repo :: opened).
        split; [by rewrite <- app_assoc|by constructor].
      * intros (opened & -> & Hall).
        apply Forall2_cons_inv_l in Hall as (repo' & opened' & Hrepo & Hall & ->).
        rewrite Hdir in Hrepo. injection Hrepo as <-.
        exists opened'. by rewrite <- app_assoc.
    + split; [done|]. intros (opened & _ & Hall).
      apply Forall2_cons_inv_l in Hall as (repo' & opened' & Hrepo & _ & _).
      by rewrite Hdir in Hrepo.
Qed.

Lemma getRepositories_opened env dirs repos :
  getRepositories env dirs = Ok repos ↔
  Forall2 (fun dir repo => git_PlainOpen env dir = Ok repo) dirs repos.
Proof.
  unfold getRepositories. rewrite getRepositories_from_Ok. split.
  - by intros (opened & -> & Hall).
  - intros Hall. by exists repos.
Qed.

(** [getRepositories] succeeds exactly when every directory opens, and
    then gives as many repositories as there are directories, the one at
    each position being the one opened for the directory at that
    position. *)
Theorem getRepositories_in_order env dirs repos :
  getRepositories env dirs = Ok repos ↔
  length dirs = length repos ∧
  ∀ i dir repo, dirs !! i = Some dir → repos !! i = Some repo →
                git_PlainOpen env dir = Ok repo.
Proof. rewrite getRepositories_opened. apply Forall2_same_length_lookup. Qed.

Lemma buildDirToRepo_lookup env dirs repos (m : gmap string Repository) dir repo :
  Forall2 (fun dir repo => git_PlainOpen env dir = Ok repo) dirs repos →
  ((foldl (fun m dr => <[dr.1 := dr.2]> m) m (zip dirs repos)) !! dir = Some repo ↔
   (dir ∈ dirs ∧ git_PlainOpen env dir = Ok repo) ∨ ((dir ∉ dirs) ∧ m !! dir = Some repo)).
Proof.
  intros Hall. revert m. induction Hall as [|d r dirs repos Hd Hall IH]; intros m; cbn.
  - rewrite elem_of_nil. naive_solver.
  - rewrite IH, elem_of_cons. destruct (decide (d = dir)) as [->|Hne].
    + rewrite lookup_insert_eq. split.
      * intros [?|[? [= <-]]]; naive_solver.
      * intros [[_ Hopen]|[Hnot _]]; [|naive_solver].
        destruct (decide (dir ∈ dirs)); [naive_solver|].
        right. split; [done|]. congruence.
    + rewrite lookup_insert_ne by done. naive_solver.
Qed.

Lemma dirToRepo_lookup_of_arguments env dirs repos dir repo :
  getRepositories env dirs = Ok repos →
  dir ∈ dirs →
  git_PlainOpen env dir = Ok repo →
  buildDirToRepo dirs repos !! dir = Some repo.
Proof.
  intros Hall%getRepositories_opened Hin Hopen. unfold buildDirToRepo.
  apply (buildDirToRepo_lookup env); [done|]. by left.
Qed.

(** The map that [main] builds from the arguments sends each of them,
    however often it was given, to the repository opened for it, and
    holds nothing else. *)
Theorem dirToRepo_of_arguments env dirs repos dir repo :
  getRepositories env dirs = Ok repos →
  (buildDirToRepo dirs repos !! dir = Some repo ↔
   dir ∈ dirs ∧ git_PlainOpen env dir = Ok repo).
Proof.
  intros Hall. pose proof Hall as Hall'%getRepositories_opened. unfold buildDirToRepo.
  rewrite (buildDirToRepo_lookup env) by done. rewrite lookup_empty. naive_solver.
Qed.

Lemma dirToRepo_of_arguments_witness :
  buildDirToRepo ["work/api"; "work/frontend"; "work/api"]
    [Fixtures.api; Fixtures.unborn; Fixtures.api] !! "work/api" = Some Fixtures.api
  ∧ size (buildDirToRepo ["work/api"; "work/frontend"; "work/api"]
            [Fixtures.api; Fixtures.unborn; Fixtures.api]) = 2%nat.
Proof.
  split; [|reflexivity].
  apply (dirToRepo_of_arguments Samples.env ["work/api"; "work/frontend"; "work/api"]
           [Fixtures.api; Fixtures.unborn; Fixtures.api] "work/api" Fixtures.api eq_refl).
  split; [|reflexivity]. apply elem_of_cons. by left.
Defined.

(** ** The label of a directory *)

(** [getBaseDirectoryName] fails only for the current directory, written
    [.] or [./], and only with the error of [syscall.Getwd]. *)
Theorem getBaseDirectoryName_fails env p e :
  getBaseDirectoryName env p = Err e ↔
  (p = "." ∨ p = "./") ∧ syscall_Getwd env = Err e.
Proof.
  unfold getBaseDirectoryName.
  destruct (String.eqb p "./") eqn:E1; [|destruct (String.eqb p ".") eqn:E2]; cbn.
  - apply String.eqb_eq in E1 as ->. destruct (syscall_Getwd env); naive_solver.
  - apply String.eqb_eq in E2 as ->. destruct (syscall_Getwd env); naive_solver.
  - apply String.eqb_neq in E1, E2. naive_solver.
Qed.

Lemma lastElement_no_separator path :
  filepath.hasSeparator (filepath.lastElement path) = false.
Proof.
  induction path as [|ch path IH]; [done|]. cbn.
  destruct (filepath.hasSeparator path) eqn:Hsep; [done|].
  destruct (filepath.IsPathSeparator ch) eqn:Hch; [done|]. cbn. by rewrite Hch, Hsep.
Qed.

(** A label is never empty, and holds no path separator unless it is the
    root [/] itself. *)
Theorem label_is_one_element env p label :
  getBaseDirectoryName env p = Ok label →
  label ≠ "" ∧ (filepath.hasSeparator label = false ∨ label = "/").
Proof.
  assert (HBase : ∀ path, filepath.Base path ≠ "" ∧
            (filepath.hasSeparator (filepath.Base path) = false ∨ filepath.Base path = "/")).
  { intros path. unfold filepath.Base. destruct (String.eqb path ""); [by split; [|left]|].
    destruct (String.eqb _ "") eqn:E; [by split; [|right]|].
    apply String.eqb_neq in E. split; [done|]. left. apply lastElement_no_separator. }
  unfold getBaseDirectoryName. destruct (_ || _).
  - destruct (syscall_Getwd env); [|done]. intros [= <-]. apply HBase.
  - intros [= <-]. apply HBase.
Qed.

Lemma label_is_one_element_witness :
  getBaseDirectoryName Samples.env "./" = Ok "today"
  ∧ "today" ≠ "" ∧ (filepath.hasSeparator "today" = false ∨ "today" = "/").
Proof.
  split; [reflexivity|].
  exact (label_is_one_element Samples.env "./" "today" eq_refl).
Defined.

(** ** When a directory is processed *)

Lemma dir_Ok_spec env author short since dir repo msgs w msgs' w' :
  getCommitMessages_dir env author short since dir repo (msgs, w) = Ok (msgs', w') ↔
  ∃ sanitisedDir ref atEnd pre c post,
    getBaseDirectoryName env dir = Ok sanitisedDir ∧
    Head repo = Ok ref ∧
    Log repo (Hash ref) = Ok {| pending := pre ++ c :: post; at_end := atEnd |} ∧
    forallb (inWindow (threshold env since w)) pre = true ∧
    inWindow (threshold env since w) c = false ∧
    msgs' = appendMessages (<[sanitisedDir := []]> msgs) dir (selected author short pre) ∧
    w' = tick w.
Proof.
  split.
  - unfold getCommitMessages_dir.
    destruct (getBaseDirectoryName env dir) as [sanitisedDir|] eqn:Hbase; [cbn|done].
    destruct (Head repo) as [ref|] eqn:Hhead; [cbn|done].
    destruct (Log repo _) as [[walk atEnd]|] eqn:Hlog; [cbn|done].
    unfold Next. cbn. destruct walk as [|cur rest]; [done|]. cbn.
    fold (threshold env since w).
    destruct (commitLoop _ _ _ _ _ _ _ _) as [[m it]|] eqn:Hloop; [cbn|done].
    intros [= <- <-].
    apply commitLoop_Ok_inv in Hloop as (pre & c & post & Hwalk & Hpre & Hc & -> & _).
    rewrite Hwalk in Hlog. by exists sanitisedDir, ref, atEnd, pre, c, post.
  - intros (sanitisedDir & ref & atEnd & pre & c & post & Hbase & Hhead & Hlog
            & Hpre & Hc & -> & ->).
    by eapply dir_stops.
Qed.

(** A directory is processed without an error exactly when its label,
    its head and its log are obtained and some commit of its walk is not
    strictly after the threshold. *)
Theorem dir_succeeds_iff env author short since dir repo msgs w :
  is_Err (getCommitMessages_dir env author short since dir repo (msgs, w)) = false ↔
  ∃ sanitisedDir ref cIter,
    getBaseDirectoryName env dir = Ok sanitisedDir ∧
    Head repo = Ok ref ∧
    Log repo (Hash ref) = Ok cIter ∧
    forallb (inWindow (threshold env since w)) (pending cIter) = false.
Proof.
  split.
  - destruct (getCommitMessages_dir _ _ _ _ _ _ _) as [[msgs' w']|] eqn:Hrun; [|done].
    intros _. apply dir_Ok_spec in Hrun
      as (sd & ref & atEnd & pre & c & post & Hbase & Hhead & Hlog & _ & Hc & _).
    exists sd, ref, {| pending := pre ++ c :: post; at_end := atEnd |}.
    repeat split; try done. cbn. rewrite List.forallb_app. cbn.
    by rewrite Hc, andb_false_r.
  - intros (sd & ref & [walk atEnd] & Hbase & Hhead & Hlog & Hsome). cbn in Hsome.
    destruct (window_split (threshold env since w) walk)
      as [Hall|(pre & c & post & -> & Hpre & Hc)]; [congruence|].
    by rewrite (dir_stops _ _ _ _ _ _ _ _ _ _ _ _ _ _ Hbase Hhead Hlog Hpre Hc).
Qed.



(** ** Directories named by their labels *)

Lemma range_dom_labels env author short since entries msgs w msgs' w' :
  (∀ dir repo, (dir, repo) ∈ entries → getBaseDirectoryName env dir = Ok dir) →
  getCommitMessages_range env author short since entries (msgs, w) = Ok (msgs', w') →
  dom msgs' = list_to_set entries.*1 ∪ dom msgs.
Proof.
  revert msgs w. induction entries as [|[dir repo] entries IH]; intros msgs w Hlabels; cbn.
  - intros [= <- _]. set_solver.
  - destruct (getCommitMessages_dir _ _ _ _ _ _ _) as [[m1 w1]|] eqn:Hdir; [cbn|done].
    intros Hrest. apply IH in Hrest; [|intros d r Hin; eapply Hlabels; by right].
    apply dir_Ok_inv in Hdir as (sd & pre & Hbase & -> & _).
    rewrite (Hlabels dir repo) in Hbase by left. injection Hbase as <-.
    rewrite Hrest, dom_appendMessages, dom_insert_L.
    destruct (selected author short pre); set_solver.
Qed.

(** When every directory is given by its own label, a run that succeeds
    returns a mapping whose keys are exactly the directories requested,
    in whatever order they were visited. *)
Theorem keys_are_the_directories env dirToRepo author short since w msgs w' :
  map_range env dirToRepo ≡ₚ map_to_list dirToRepo →
  (∀ dir repo, dirToRepo !! dir = Some repo → getBaseDirectoryName env dir = Ok dir) →
  getCommitMessages env dirToRepo author short since w = Ok (msgs, w') →
  dom msgs = dom dirToRepo.
Proof.
  intros Horder Hlabels Hrun. unfold getCommitMessages in Hrun.
  apply range_dom_labels in Hrun.
  - rewrite Hrun, dom_empty_L, (right_id_L ∅ (∪)).
    apply leibniz_equiv. rewrite dom_alt. by rewrite Horder.
  - intros dir repo Hin. apply (Hlabels dir repo).
    rewrite Horder in Hin. by apply elem_of_map_to_list in Hin.
Qed.

Lemma keys_are_the_directories_witness :
  dom ({[ "api" := ["add endpoint"]; "proj" := ["fix bug"; "add feature"] ]}
         : gmap string (list string)) =
  dom ({[ "api" := Fixtures.api; "proj" := Fixtures.proj ]} : gmap string Repository).
Proof.
  refine (keys_are_the_directories Samples.env
            {[ "api" := Fixtures.api; "proj" := Fixtures.proj ]} "" true (12 * time.Hour)
            Fixtures.start _ (tick (tick Fixtures.start)) _ _ _).
  - reflexivity.
  - intros dir repo Hin.
    apply lookup_insert_Some in Hin as [[<- _]|[_ Hin]]; [reflexivity|].
    apply lookup_singleton_Some in Hin as [<- _]. reflexivity.
  - reflexivity.
Defined.

(** ** Short messages are single lines *)

Lemma firstLine_oneLine msg : oneLine (firstLine msg).
Proof.
  unfold oneLine, firstLine. induction msg as [|ch msg IH]; [done|].
  rewrite Cut_cons. destruct (String.prefix LF (String ch msg)) eqn:Hp; [done|].
  destruct (strings.Cut msg LF) as [[before after] found]. cbn [fst] in *.
  rewrite Contains_unfold, IH, orb_false_r.
  by rewrite prefix_LF in Hp |- *.
Qed.

Lemma appendMessages_Forall (P : string → Prop) msgs dir xs :
  map_Forall (fun _ ms => Forall P ms) msgs →
  Forall P xs →
  map_Forall (fun _ ms => Forall P ms) (appendMessages msgs dir xs).
Proof.
  intros Hmsgs Hxs. unfold appendMessages. revert msgs Hmsgs.
  induction Hxs as [|x xs Hx _ IH]; intros msgs Hmsgs; [done|]. cbn.
  apply IH. unfold appendMessage. apply map_Forall_insert_2; [|done].
  apply Forall_app. split; [|by constructor].
  destruct (msgs !! dir) as [ms|] eqn:Hdir; cbn; [by apply (Hmsgs dir)|constructor].
Qed.

(** With [--short] no message of the mapping holds a line break,
    whichever the directories and their histories. *)
Theorem short_messages_one_line env dirToRepo author since w msgs w' dir ms :
  getCommitMessages env dirToRepo author true since w = Ok (msgs, w') →
  msgs !! dir = Some ms →
  Forall oneLine ms.
Proof.
  unfold getCommitMessages. intros Hrun Hdir.
  enough (Hall : map_Forall (fun _ ms => Forall oneLine ms) msgs) by by apply (Hall dir).
  clear Hdir. revert Hrun. generalize (map_range env dirToRepo) as entries.
  assert (Hempty : map_Forall (fun _ ms => Forall oneLine ms)
                     (∅ : gmap string (list string))) by apply map_Forall_empty.
  revert Hempty. generalize (∅ : gmap string (list string)) as msgs0. intros msgs0 H0 entries.
  revert msgs0 w H0. induction entries as [|[d r] entries IH]; intros msgs0 w H0; cbn.
  - by intros [= <- _].
  - destruct (getCommitMessages_dir _ _ _ _ _ _ _) as [[m1 w1]|] eqn:Hstep; [cbn|done].
    apply IH. apply dir_Ok_inv in Hstep as (sd & pre & _ & -> & _).
    apply appendMessages_Forall.
    + by apply map_Forall_insert_2.
    + unfold selected. apply Forall_forall. intros m Hm.
      apply list_elem_of_In, in_map_iff in Hm as (k & <- & _). apply firstLine_oneLine.
Qed.

Lemma short_messages_one_line_witness :
  Forall oneLine ["fix bug"; "add feature"].
Proof.
  exact (short_messages_one_line Samples.env {[ "proj" := Fixtures.proj ]} ""
           (12 * time.Hour) Fixtures.start {[ "proj" := ["fix bug"; "add feature"] ]}
           (tick Fixtures.start) "proj" ["fix bug"; "add feature"] eq_refl eq_refl).
Defined.

(** ** The author filter narrows the result *)

Lemma selected_sublist author short cs :
  selected author short cs `sublist_of` selected "" short cs.
Proof.
  unfold selected. rewrite filter_no_author.
  induction cs as [|c cs IH]; cbn; [constructor|].
  destruct (passesAuthor author c); cbn; by constructor.
Qed.

(** The messages returned for a directory with an author filter are a
    subsequence, in the same order, of those returned without one; the
    filter has no bearing on whether the directory is processed without
    an error. *)
Theorem author_filter_narrows env author short since dir repo msgs w msgs' w' :
  getCommitMessages_dir env author short since dir repo (msgs, w) = Ok (msgs', w') →
  ∃ all,
    getCommitMessages_dir env "" short since dir repo (msgs, w) = Ok (all, w') ∧
    messagesOf msgs' dir `sublist_of` messagesOf all dir.
Proof.
  intros (sd & ref & atEnd & pre & c & post & Hbase & Hhead & Hlog & Hpre & Hc & -> & ->)
    %dir_Ok_spec.
  eexists. split; [by eapply dir_stops|].
  rewrite !messagesOf_appendMessages. apply sublist_app; [done|]. apply selected_sublist.
Qed.

Lemma author_filter_narrows_witness :
  ∃ all,
    getCommitMessages_dir Samples.env "" true (12 * time.Hour) "proj" Fixtures.proj
      (∅, Fixtures.start) = Ok (all, tick Fixtures.start) ∧
    messagesOf {[ "proj" := ["add feature"] ]} "proj" `sublist_of` messagesOf all "proj".
Proof.
  exact (author_filter_narrows Samples.env "Jill" true (12 * time.Hour) "proj" Fixtures.proj
           ∅ Fixtures.start {[ "proj" := ["add feature"] ]} (tick Fixtures.start) eq_refl).
Defined.

(** ** A longer lookback *)

Lemma neg_no_wrap (d : time.Duration) : - 2 ^ 63 < d < 2 ^ 63 → time.neg d = - d.
Proof.
  intros Hd. unfold time.neg, time.wrap64. rewrite Z.mod_small; lia.
Qed.

Lemma window_prefix_mono t1 t2 pre1 c1 post1 pre2 c2 post2 :
  t2 <= t1 →
  pre1 ++ c1 :: post1 = pre2 ++ c2 :: post2 →
  forallb (inWindow t1) pre1 = true →
  inWindow t2 c2 = false →
  pre1 `prefix_of` pre2.
Proof.
  intros Ht. revert pre2. induction pre1 as [|x pre1 IH]; intros pre2 Hwalk Hpre1 Hc2.
  - by exists pre2.
  - cbn in Hpre1. apply andb_prop in Hpre1 as [Hx Hpre1].
    destruct pre2 as [|y pre2]; cbn in Hwalk; injection Hwalk as <- Hwalk.
    + unfold inWindow, time.After, time.UTC in *.
      apply Z.ltb_lt in Hx. apply Z.ltb_ge in Hc2. lia.
    + destruct (IH pre2 Hwalk Hpre1 Hc2) as [k ->]. by exists k.
Qed.

(** Lengthening the lookback never removes a message of a directory: the
    sequence got with the shorter lookback is the beginning of the one
    got with the longer, the further messages following it. *)
Theorem longer_lookback_extends env author short since1 since2 dir repo msgs w
    msgs1 w1 msgs2 w2 :
  - 2 ^ 63 < since1 → since1 <= since2 → since2 < 2 ^ 63 →
  getCommitMessages_dir env author short since1 dir repo (msgs, w) = Ok (msgs1, w1) →
  getCommitMessages_dir env author short since2 dir repo (msgs, w) = Ok (msgs2, w2) →
  messagesOf msgs1 dir `prefix_of` messagesOf msgs2 dir.
Proof.
  intros Hlo Hle Hhi
    (sd & ref & atEnd & pre1 & c1 & post1 & Hbase & Hhead & Hlog & Hpre1 & _ & -> & _)
      %dir_Ok_spec
    (sd' & ref' & atEnd' & pre2 & c2 & post2 & Hbase' & Hhead' & Hlog' & _ & Hc2 & -> & _)
      %dir_Ok_spec.
  rewrite Hbase in Hbase'. injection Hbase' as <-.
  rewrite Hhead in Hhead'. injection Hhead' as <-.
  rewrite Hlog in Hlog'. injection Hlog' as Hwalk _.
  assert (Ht : threshold env since2 w <= threshold env since1 w).
  { unfold threshold, time.Add. rewrite !neg_no_wrap by lia. lia. }
  destruct (window_prefix_mono _ _ _ _ _ _ _ _ Ht Hwalk Hpre1 Hc2) as [k ->].
  rewrite !messagesOf_appendMessages. apply prefix_app.
  unfold selected. rewrite List.filter_app, List.map_app. by eexists.
Qed.

Lemma longer_lookback_extends_witness :
  messagesOf {[ "proj" := ["fix bug"] ]} "proj" `prefix_of`
  messagesOf {[ "proj" := ["fix bug"; "add feature"] ]} "proj".
Proof.
  exact (longer_lookback_extends Samples.env "" true time.Minute (12 * time.Hour) "proj"
           Fixtures.proj ∅ Fixtures.start
           {[ "proj" := ["fix bug"] ]} (tick Fixtures.start)
           {[ "proj" := ["fix bug"; "add feature"] ]} (tick Fixtures.start)
           eq_refl ltac:(discriminate) eq_refl eq_refl eq_refl).
Defined.

(** ** What a printed mapping tells *)

Lemma range_Ok_inv env author short since entries st st' dir repo :
  getCommitMessages_range env author short since entries st = Ok st' →
  (dir, repo) ∈ entries →
  ∃ st1 st2, getCommitMessages_dir env author short since dir repo st1 = Ok st2.
Proof.
  revert st. induction entries as [|[d r] entries IH]; intros st; cbn.
  - intros _ Hin. by apply elem_of_nil in Hin.
  - destruct (getCommitMessages_dir _ _ _ _ _ _ _) as [st1|] eqn:Hstep; [cbn|done].
    intros Hrest [[= -> ->]|Hin]%elem_of_cons; [by exists st, st1|by eapply IH].
Qed.

(** [main] prints the mapping only if every argument opens as a
    repository whose head and log are obtained and whose history holds a
    commit dated at or before the instant some reading of the clock gives
    less the lookback: a single directory whose history lies wholly
    within the window keeps every directory from being printed. *)
Theorem printed_only_if env author short since args w msgs dir :
  (∀ m, map_range env m ≡ₚ map_to_list m) →
  main env author short since args w = Printed msgs →
  dir ∈ args →
  ∃ repo ref cIter c k,
    git_PlainOpen env dir = Ok repo ∧
    Head repo = Ok ref ∧
    Log repo (Hash ref) = Ok cIter ∧
    c ∈ pending cIter ∧
    When (Author c) <= time.Add (time_Now env k) (time.neg since).
Proof.
  intros Horder Hmain Hdir. unfold main in Hmain.
  destruct (Nat.eqb _ _); [done|].
  destruct (validatePaths env args); [|done].
  destruct (getRepositories env args) as [repos|] eqn:Hrepos; [|done].
  destruct (getCommitMessages _ _ _ _ _ _) as [[m w']|] eqn:Hrun; [|done].
  destruct (git_PlainOpen env dir) as [repo|e] eqn:Hopen.
  - assert (Hin : (dir, repo) ∈ map_range env (buildDirToRepo args repos)).
    { rewrite Horder. apply elem_of_map_to_list.
      by apply (dirToRepo_lookup_of_arguments env). }
    unfold getCommitMessages in Hrun.
    destruct (range_Ok_inv _ _ _ _ _ _ _ _ _ Hrun Hin) as ([m1 w1] & [m2 w2] & Hstep).
    apply dir_Ok_spec in Hstep
      as (sd & ref & atEnd & pre & c & post & _ & Hhead & Hlog & _ & Hc & _ & _).
    exists repo, ref, {| pending := pre ++ c :: post; at_end := atEnd |}, c, (clock_reads w1).
    repeat split; try done.
    + cbn. apply elem_of_app. right. by left.
    + unfold inWindow, threshold, time.After, time.UTC in Hc. by apply Z.ltb_ge in Hc.
  - apply getRepositories_opened in Hrepos.
    apply list_elem_of_lookup in Hdir as [i Hi].
    destruct (Forall2_lookup_l _ _ _ _ _ Hrepos Hi) as (r & _ & Hr). congruence.
Qed.

Lemma printed_only_if_witness :
  ∃ repo ref cIter c k,
    git_PlainOpen Samples.env "work/api" = Ok repo ∧
    Head repo = Ok ref ∧
    Log repo (Hash ref) = Ok cIter ∧
    c ∈ pending cIter ∧
    When (Author c) <= time.Add (time_Now Samples.env k) (time.neg (12 * time.Hour)).
Proof.
  refine (printed_only_if Samples.env "" false (12 * time.Hour) ["work/api"] Fixtures.start
            {[ "api" := []; "work/api" := ["add endpoint"] ]} "work/api" _ eq_refl _).
  - intros m. reflexivity.
  - apply elem_of_cons. by left.
Defined.

(** ** Samples for the counting lemmas *)

Lemma selection_count_witness :
  ∃ msgs',
    getCommitMessages_dir Samples.env "" true (12 * time.Hour) "proj" Fixtures.proj
      (∅, Fixtures.start) = Ok (msgs', tick Fixtures.start) ∧
    length (messagesOf msgs' "proj") = 2%nat.
Proof.
  refine (selection_count Samples.env true (12 * time.Hour) "proj" Fixtures.proj
            {| Hash := "HEAD" |} io_EOF
            [Fixtures.commit "Jack" "fix bug" Fixtures.now;
             Fixtures.commit "Jill" ("add feature" +:+ LF +:+ "longer body")
               (Fixtures.now - time.Hour)]
            (Fixtures.commit "Jack" "initial commit" (Fixtures.now - 200 * time.Hour)) []
            Fixtures.start "proj" eq_refl eq_refl eq_refl _ eq_refl eq_refl).
  unfold nonIncreasing. repeat constructor; vm_compute; discriminate.
Defined.

Lemma no_author_match_witness :
  getCommitMessages_dir Samples.env "INVALID_COMMIT_AUTHOR" true (12 * time.Hour) "proj"
    Fixtures.proj (∅, Fixtures.start) = Ok ({[ "proj" := [] ]}, tick Fixtures.start).
Proof.
  exact (no_author_match Samples.env "INVALID_COMMIT_AUTHOR" true (12 * time.Hour) "proj"
           Fixtures.proj {| Hash := "HEAD" |} io_EOF
           [Fixtures.commit "Jack" "fix bug" Fixtures.now;
            Fixtures.commit "Jill" ("add feature" +:+ LF +:+ "longer body")
              (Fixtures.now - time.Hour)]
           (Fixtures.commit "Jack" "initial commit" (Fixtures.now - 200 * time.Hour)) []
           ∅ Fixtures.start "proj" eq_refl eq_refl eq_refl eq_refl eq_refl eq_refl).
Defined.

Lemma base_names_present_witness :
  ∃ sanitisedDir,
    getBaseDirectoryName Samples.env "work/api" = Ok sanitisedDir ∧
    sanitisedDir ∈ dom ({[ "api" := []; "work/api" := ["add endpoint"] ]}
                          : gmap string (list string)).
Proof.
  refine (base_names_present Samples.env "" false (12 * time.Hour)
            [("work/api", Fixtures.api)] ∅ Fixtures.start
            {[ "api" := []; "work/api" := ["add endpoint"] ]} (tick Fixtures.start)
            "work/api" Fixtures.api eq_refl _).
  apply elem_of_cons. by left.
Defined.

(** ** The earlier revisions *)

Lemma WithShort_commitLoop short timeSince dir cur rest atEnd msgs :
  WithShort.commitLoop short timeSince dir cur rest atEnd msgs =
  commitLoop "" short timeSince dir cur rest atEnd msgs.
Proof.
  revert cur msgs. induction rest as [|nextCommit rest IH]; intros cur msgs;
    rewrite commitLoop_unfold; cbn; unfold inWindow.
  - by destruct (time.After _ _).
  - destruct (time.After _ _); [|done]. rewrite IH. unfold shown, firstLine.
    by destruct short; [destruct (strings.Cut _ _) as [[? ?] ?]|].
Qed.

Lemma WithShort_dir env short since dir repo st :
  getBaseDirectoryName env dir = Ok dir →
  WithShort.getCommitMessages_dir env short since dir repo st =
  getCommitMessages_dir env "" short since dir repo st.
Proof.
  intros Hbase. destruct st as [msgs w].
  unfold WithShort.getCommitMessages_dir, getCommitMessages_dir. rewrite Hbase. cbn.
  destruct (Head repo); [cbn|done]. destruct (Log repo _) as [cIter|]; [cbn|done].
  destruct (Next cIter) as [[cur cIter']|]; [cbn|done].
  by rewrite WithShort_commitLoop.
Qed.

(** Adding the author filter and the labels changed nothing for the runs
    that use neither: with an empty filter and every directory given by
    its own label, the present [getCommitMessages] returns what the
    revision before it returned, errors included. *)
Theorem author_revision_conservative env dirToRepo short since w :
  map_range env dirToRepo ≡ₚ map_to_list dirToRepo →
  (∀ dir repo, dirToRepo !! dir = Some repo → getBaseDirectoryName env dir = Ok dir) →
  getCommitMessages env dirToRepo "" short since w =
  WithShort.getCommitMessages env dirToRepo short since w.
Proof.
  intros Horder Hlabels. unfold getCommitMessages, WithShort.getCommitMessages.
  assert (Hall : ∀ dir repo, (dir, repo) ∈ map_range env dirToRepo →
                             getBaseDirectoryName env dir = Ok dir).
  { intros dir repo Hin. apply (Hlabels dir repo).
    rewrite Horder in Hin. by apply elem_of_map_to_list in Hin. }
  revert Hall. generalize (map_range env dirToRepo) as entries.
  generalize (∅ : gmap string (list string), w) as st.
  intros st entries. revert st.
  induction entries as [|[dir repo] entries IH]; intros st Hall; [done|]. cbn.
  rewrite WithShort_dir by (eapply Hall; by left).
  destruct (getCommitMessages_dir _ _ _ _ _ _ _) as [st'|]; [cbn|done].
  apply IH. intros d r Hin. eapply Hall. by right.
Qed.

Lemma author_revision_conservative_witness :
  getCommitMessages Samples.env {[ "api" := Fixtures.api; "today" := Fixtures.fresh ]}
    "" true (12 * time.Hour) Fixtures.start =
  WithShort.getCommitMessages Samples.env
    {[ "api" := Fixtures.api; "today" := Fixtures.fresh ]} true (12 * time.Hour)
    Fixtures.start.
Proof.
  refine (author_revision_conservative Samples.env
            {[ "api" := Fixtures.api; "today" := Fixtures.fresh ]} true (12 * time.Hour)
            Fixtures.start _ _).
  - reflexivity.
  - intros dir repo Hin.
    apply lookup_insert_Some in Hin as [[<- _]|[_ Hin]]; [reflexivity|].
    apply lookup_singleton_Some in Hin as [<- _]. reflexivity.
Defined.

Lemma visit_spec env short since dir c msgs w :
  ForEach.visit env short since dir c (msgs, w) =
  Ok (if inWindow (threshold env since w) c
      then appendMessage msgs dir (shown short c) else msgs, tick w).
Proof.
  unfold ForEach.visit, inWindow, threshold, shown, firstLine. cbn.
  destruct (time.After _ _); [|done].
  by destruct short; [destruct (strings.Cut _ _) as [[? ?] ?]|].
Qed.

Lemma ForEach_cons {S} (cb : Commit → S → Result S) c rest atEnd st :
  ForEach.CommitIter_ForEach cb (c :: rest) atEnd st =
  (st' ← cb c st; ForEach.CommitIter_ForEach cb rest atEnd st').
Proof. reflexivity. Qed.

Lemma ForEach_walk env short since dir cs atEnd msgs w :
  ∃ msgs',
    ForEach.CommitIter_ForEach (ForEach.visit env short since dir) cs atEnd (msgs, w) =
    match atEnd with
    | io_EOF => Ok (msgs', {| clock_reads := clock_reads w + length cs |})
    | e => Err e
    end.
Proof.
  revert msgs w. induction cs as [|c cs IH]; intros msgs w.
  - exists msgs. destruct w as [k]. cbn. rewrite Nat.add_0_r. by destruct atEnd.
  - rewrite ForEach_cons, visit_spec. cbn [mbind Result_bind].
    edestruct IH as [msgs' ->]. exists msgs'.
    destruct atEnd; try done. cbn. do 3 f_equal. lia.
Qed.

(** The revision that walks with [ForEach] does not take the end of a
    history for a failure: once the head and the log are obtained and the
    history can be read to its end, the directory is processed, with one
    reading of the clock for each of its commits. *)
Theorem ForEach_reads_to_the_end env short since dir repo ref cs msgs w :
  Head repo = Ok ref →
  Log repo (Hash ref) = Ok {| pending := cs; at_end := io_EOF |} →
  ∃ msgs',
    ForEach.getCommitMessages_dir env short since dir repo (msgs, w) =
    Ok (msgs', {| clock_reads := clock_reads w + length cs |}).
Proof.
  intros Hhead Hlog. unfold ForEach.getCommitMessages_dir. rewrite Hhead. cbn.
  rewrite Hlog. cbn.
  destruct (ForEach_walk env short since dir cs io_EOF (<[dir := []]> msgs) w)
    as [msgs' Hwalk].
  by exists msgs'.
Qed.

(** The repository made ten seconds ago, on which the present revision
    returns [io.EOF]. *)
Lemma ForEach_reads_to_the_end_witness :
  ∃ msgs',
    ForEach.getCommitMessages_dir Samples.env true time.Minute "today" Fixtures.fresh
      (∅, Fixtures.start) = Ok (msgs', {| clock_reads := 0 + 1 |}).
Proof.
  exact (ForEach_reads_to_the_end Samples.env true time.Minute "today" Fixtures.fresh
           {| Hash := "HEAD" |}
           [Fixtures.commit "testUser" "TEST" (Fixtures.now - 10 * Fixtures.Second)]
           ∅ Fixtures.start eq_refl eq_refl).
Defined.

Lemma ForEach_walk_frozen env short since dir cs msgs w now :
  (∀ k, time_Now env k = now) →
  ForEach.CommitIter_ForEach (ForEach.visit env short since dir) cs io_EOF (msgs, w) =
  Ok (appendMessages msgs dir
        (map (shown short) (List.filter (inWindow (time.Add now (time.neg since))) cs)),
      {| clock_reads := clock_reads w + length cs |}).
Proof.
  intros Hclock. revert msgs w. induction cs as [|c cs IH]; intros msgs w.
  - destruct w as [k]. cbn. by rewrite Nat.add_0_r.
  - rewrite ForEach_cons, visit_spec. cbn [mbind Result_bind].
    rewrite IH. unfold threshold, time.UTC. rewrite Hclock.
    cbn. rewrite Nat.add_succ_r. by destruct (inWindow _ c).
Qed.

(** While the clock stands still, the revision that walks with [ForEach]
    returns for a directory the messages of all the commits of its
    history that are strictly after the threshold, in the order of the
    walk: a commit outside the window does not end the walk. *)
Theorem ForEach_selects_all env short since dir repo ref cs msgs w now :
  (∀ k, time_Now env k = now) →
  Head repo = Ok ref →
  Log repo (Hash ref) = Ok {| pending := cs; at_end := io_EOF |} →
  ForEach.getCommitMessages_dir env short since dir repo (msgs, w) =
  Ok (appendMessages (<[dir := []]> msgs) dir
        (map (shown short) (List.filter (inWindow (time.Add now (time.neg since))) cs)),
      {| clock_reads := clock_reads w + length cs |}).
Proof.
  intros Hclock Hhead Hlog. unfold ForEach.getCommitMessages_dir. rewrite Hhead. cbn.
  rewrite Hlog. cbn. by apply ForEach_walk_frozen.
Qed.

(** A history with an old author date in its middle: the commit after it
    is returned by this revision. *)
Lemma ForEach_selects_all_witness :
  ForEach.getCommitMessages_dir Samples.env false (12 * time.Hour) "proj" Samples.rebased
    (∅, Fixtures.start) =
  Ok ({[ "proj" := ["fix bug"; "add feature"] ]}, {| clock_reads := 4 |}).
Proof.
  exact (ForEach_selects_all Samples.env false (12 * time.Hour) "proj" Samples.rebased
           {| Hash := "HEAD" |}
           [Fixtures.commit "Jack" "fix bug" Fixtures.now;
            Fixtures.commit "Jill" "cherry-picked" (Fixtures.now - 300 * time.Hour);
            Fixtures.commit "Jack" "add feature" (Fixtures.now - time.Hour);
            Fixtures.commit "Jack" "initial commit" (Fixtures.now - 200 * time.Hour)]
           ∅ Fixtures.start Fixtures.now (fun _ => eq_refl) eq_refl eq_refl).
Defined.

(** On a history of non-increasing timestamps that can be read to its
    end, with the clock standing still, no author filter and the
    directory given by its label, whatever mapping the present revision
    returns is the one the revision that walks with [ForEach] returns:
    stopping at the first commit outside the window loses nothing. *)
Theorem early_stop_loses_nothing env short since dir repo ref cs msgs w now msgs' w' :
  (∀ k, time_Now env k = now) →
  getBaseDirectoryName env dir = Ok dir →
  Head repo = Ok ref →
  Log repo (Hash ref) = Ok {| pending := cs; at_end := io_EOF |} →
  nonIncreasing cs →
  getCommitMessages_dir env "" short since dir repo (msgs, w) = Ok (msgs', w') →
  ForEach.getCommitMessages_dir env short since dir repo (msgs, w) =
  Ok (msgs', {| clock_reads := clock_reads w + length cs |}).
Proof.
  intros Hclock Hbase Hhead Hlog Hsorted
    (sd & ref' & atEnd & pre & c & post & Hbase' & Hhead' & Hlog' & Hpre & Hc & -> & _)
      %dir_Ok_spec.
  rewrite Hbase in Hbase'. injection Hbase' as <-.
  rewrite Hhead in Hhead'. injection Hhead' as <-.
  rewrite Hlog in Hlog'. injection Hlog' as -> _.
  unfold ForEach.getCommitMessages_dir. rewrite Hhead. cbn. rewrite Hlog. cbn.
  rewrite (ForEach_walk_frozen _ _ _ _ _ _ _ _ Hclock).
  assert (Hth : threshold env since w = time.Add now (time.neg since)).
  { unfold threshold, time.UTC. by rewrite Hclock. }
  rewrite <- Hth, in_window_prefix by done.
  unfold selected. by rewrite filter_no_author.
Qed.

Lemma early_stop_loses_nothing_witness :
  ForEach.getCommitMessages_dir Samples.env true (12 * time.Hour) "proj" Fixtures.proj
    (∅, Fixtures.start) =
  Ok ({[ "proj" := ["fix bug"; "add feature"] ]}, {| clock_reads := 0 + 3 |}).
Proof.
  refine (early_stop_loses_nothing Samples.env true (12 * time.Hour) "proj" Fixtures.proj
            {| Hash := "HEAD" |}
            [Fixtures.commit "Jack" "fix bug" Fixtures.now;
             Fixtures.commit "Jill" ("add feature" +:+ LF +:+ "longer body")
               (Fixtures.now - time.Hour);
             Fixtures.commit "Jack" "initial commit" (Fixtures.now - 200 * time.Hour)]
            ∅ Fixtures.start Fixtures.now {[ "proj" := ["fix bug"; "add feature"] ]}
            (tick Fixtures.start) (fun _ => eq_refl) eq_refl eq_refl eq_refl _ eq_refl).
  unfold nonIncreasing. repeat constructor; vm_compute; discriminate.
Defined.

(** When the history cannot be read to its end, the revision that walks
    with [ForEach] fails with the error of the iterator wherever the
    failure lies, be it after commits outside the window. *)
Theorem ForEach_surfaces_errors env short since dir repo ref cs atEnd msgs w :
  Head repo = Ok ref →
  Log repo (Hash ref) = Ok {| pending := cs; at_end := atEnd |} →
  atEnd ≠ io_EOF →
  ForEach.getCommitMessages_dir env short since dir repo (msgs, w) = Err atEnd.
Proof.
  intros Hhead Hlog Hend. unfold ForEach.getCommitMessages_dir. rewrite Hhead. cbn.
  rewrite Hlog. cbn.
  destruct (ForEach_walk env short since dir cs atEnd (<[dir := []]> msgs) w)
    as [msgs' ->].
  by destruct atEnd.
Qed.

(** The history breaks off after the commit of 200 hours ago: the
    present revision never reads that far, this one fails. *)
Lemma ForEach_surfaces_errors_witness :
  ForEach.getCommitMessages_dir Samples.env false (12 * time.Hour) "api"
    Samples.truncated (∅, Fixtures.start) = Err (ErrOther "object not found")
  ∧ getCommitMessages_dir Samples.env "" false (12 * time.Hour) "api"
      Samples.truncated (∅, Fixtures.start) =
    Ok ({[ "api" := ["add endpoint"] ]}, tick Fixtures.start).
Proof.
  split; [|reflexivity].
  exact (ForEach_surfaces_errors Samples.env false (12 * time.Hour) "api"
           Samples.truncated {| Hash := "HEAD" |}
           [Fixtures.commit "Jack" "add endpoint" (Fixtures.now - time.Hour);
            Fixtures.commit "Jack" "initial commit" (Fixtures.now - 200 * time.Hour)]
           (ErrOther "object not found") ∅ Fixtures.start
           eq_refl eq_refl ltac:(discriminate)).
Defined.

(** ** How [main] ends *)


(** ** The order of visiting the directories *)

Lemma appendMessages_reset (msgs : gmap string (list string)) dir xs :
  appendMessages (<[dir := []]> msgs) dir xs = <[dir := xs]> msgs.
Proof.
  apply map_eq. intros k. destruct (decide (dir = k)) as [<-|Hne].
  - rewrite lookup_insert_eq. destruct xs as [|x xs]; [cbn; by rewrite lookup_insert_eq|].
    rewrite lookup_appendMessages by done. unfold messagesOf.
    by rewrite lookup_insert_eq.
  - by rewrite lookup_appendMessages_ne, !lookup_insert_ne.
Qed.

Lemma dir_labelled env author short since dir repo msgs w now :
  (∀ k, time_Now env k = now) →
  getBaseDirectoryName env dir = Ok dir →
  getCommitMessages_dir env author short since dir repo (msgs, w) =
  match messagesFor env author short since dir repo with
  | Ok xs => Ok (<[dir := xs]> msgs, tick w)
  | Err e => Err e
  end.
Proof.
  intros Hclock Hbase. unfold messagesFor.
  assert (Hth : ∀ w1 w2, threshold env since w1 = threshold env since w2).
  { intros w1 w2. unfold threshold. by rewrite !Hclock. }
  destruct (Head repo) as [ref|e] eqn:Hhead;
    [|by rewrite !(dir_head_fails _ _ _ _ _ _ _ _ _ _ Hbase Hhead)].
  destruct (Log repo (Hash ref)) as [[walk atEnd]|e] eqn:Hlog;
    [|by rewrite !(dir_log_fails _ _ _ _ _ _ _ _ _ _ _ Hbase Hhead Hlog)].
  destruct (window_split (threshold env since w) walk)
    as [Hall|(pre & c & post & -> & Hpre & Hc)].
  - rewrite (dir_exhausts _ _ _ _ _ _ msgs w _ _ _ Hbase Hhead Hlog Hall).
    rewrite (Hth w {| clock_reads := 0 |}) in Hall.
    by rewrite (dir_exhausts _ _ _ _ _ _ _ _ _ _ _ Hbase Hhead Hlog Hall).
  - rewrite (dir_stops _ _ _ _ _ _ msgs w _ _ _ _ _ _ Hbase Hhead Hlog Hpre Hc).
    rewrite (Hth w {| clock_reads := 0 |}) in Hpre, Hc.
    rewrite (dir_stops _ _ _ _ _ _ _ _ _ _ _ _ _ _ Hbase Hhead Hlog Hpre Hc).
    rewrite !appendMessages_reset. unfold messagesOf. by rewrite lookup_insert_eq.
Qed.

Lemma messagesFor_withRange env range author short since dir repo :
  messagesFor (withRange env range) author short since dir repo =
  messagesFor env author short since dir repo.
Proof. reflexivity. Qed.

Lemma range_labelled env author short since entries msgs w now :
  (∀ k, time_Now env k = now) →
  (∀ dir repo, (dir, repo) ∈ entries → getBaseDirectoryName env dir = Ok dir) →
  NoDup entries.*1 →
  match getCommitMessages_range env author short since entries (msgs, w) with
  | Ok (msgs', w') =>
      clock_reads w' = (clock_reads w + length entries)%nat ∧
      (∀ dir repo, (dir, repo) ∈ entries →
         ∃ xs, messagesFor env author short since dir repo = Ok xs ∧
               msgs' !! dir = Some xs) ∧
      (∀ k, k ∉ entries.*1 → msgs' !! k = msgs !! k)
  | Err _ =>
      ∃ dir repo, (dir, repo) ∈ entries ∧
                  is_Err (messagesFor env author short since dir repo) = true
  end.
Proof.
  intros Hclock. revert msgs w.
  induction entries as [|[dir repo] entries IH]; intros msgs w Hlabels Hnodup.
  - cbn. split; [lia|]. split; [|done]. intros d r Hin. by apply elem_of_nil in Hin.
  - cbn [getCommitMessages_range]. apply NoDup_cons in Hnodup as [Hfresh Hnodup].
    rewrite (dir_labelled _ _ _ _ _ _ _ _ now Hclock) by (eapply Hlabels; by left).
    destruct (messagesFor env author short since dir repo) as [xs|e] eqn:Hdir.
    + cbn [mbind Result_bind].
      specialize (IH (<[dir := xs]> msgs) (tick w)
                    (fun d r Hin => Hlabels d r (proj2 (elem_of_cons _ _ _) (or_intror Hin)))
                    Hnodup).
      destruct (getCommitMessages_range _ _ _ _ _ _) as [[msgs' w']|e].
      * destruct IH as (Hreads & Hin & Hout). split; [cbn in *; lia|]. split.
        -- intros d r [[= -> ->]|Hd]%elem_of_cons; [|by apply Hin].
           exists xs. split; [done|]. cbn in Hfresh.
           by rewrite Hout, lookup_insert_eq.
        -- intros k Hk. cbn in Hk. apply not_elem_of_cons in Hk as [Hne Hk].
           by rewrite Hout, lookup_insert_ne.
      * destruct IH as (d & r & Hin & Herr). exists d, r. split; [by right|done].
    + cbn. exists dir, repo. split; [by left|]. by rewrite Hdir.
Qed.

(** While the clock stands still and every directory is given by its
    label, the mapping of a run that succeeds does not depend on the
    order in which the map of directories is visited: visited in any
    other order, the run succeeds with the same mapping. *)
Theorem visiting_order_irrelevant env range' dirToRepo author short since w now msgs w' :
  map_range env dirToRepo ≡ₚ map_to_list dirToRepo →
  range' dirToRepo ≡ₚ map_to_list dirToRepo →
  (∀ k, time_Now env k = now) →
  (∀ dir repo, dirToRepo !! dir = Some repo → getBaseDirectoryName env dir = Ok dir) →
  getCommitMessages env dirToRepo author short since w = Ok (msgs, w') →
  getCommitMessages (withRange env range') dirToRepo author short since w = Ok (msgs, w').
Proof.
  intros Horder Horder' Hclock Hlabels Hrun.
  assert (Hentries : ∀ entries, entries ≡ₚ map_to_list dirToRepo →
            (∀ dir repo, (dir, repo) ∈ entries → dirToRepo !! dir = Some repo) ∧
            NoDup entries.*1).
  { intros entries Hperm. split.
    - intros dir repo Hin. rewrite Hperm in Hin. by apply elem_of_map_to_list in Hin.
    - rewrite Hperm. apply NoDup_fst_map_to_list. }
  destruct (Hentries _ Horder) as [Hin Hnodup].
  destruct (Hentries _ Horder') as [Hin' Hnodup'].
  pose proof (range_labelled env author short since (map_range env dirToRepo) ∅ w now
                Hclock (fun d r H => Hlabels d r (Hin d r H)) Hnodup) as Hfirst.
  pose proof (range_labelled (withRange env range') author short since (range' dirToRepo)
                ∅ w now Hclock (fun d r H => Hlabels d r (Hin' d r H)) Hnodup') as Hsecond.
  unfold getCommitMessages in *. cbn [map_range withRange]. rewrite Hrun in Hfirst.
  destruct Hfirst as (Hreads & Hkeys & Hothers).
  destruct (getCommitMessages_range (withRange env range') _ _ _ _ _)
    as [[msgs2 w2]|e].
  - destruct Hsecond as (Hreads2 & Hkeys2 & Hothers2). f_equal. f_equal.
    + apply map_eq. intros k. destruct (dirToRepo !! k) as [repo|] eqn:Hk.
      * assert (Hk1 : (k, repo) ∈ map_range env dirToRepo)
          by (rewrite Horder; by apply elem_of_map_to_list).
        assert (Hk2 : (k, repo) ∈ range' dirToRepo)
          by (rewrite Horder'; by apply elem_of_map_to_list).
        destruct (Hkeys _ _ Hk1) as (xs & Hxs & ->).
        destruct (Hkeys2 _ _ Hk2) as (xs2 & Hxs2 & ->).
        rewrite messagesFor_withRange, Hxs in Hxs2. by injection Hxs2 as <-.
      * assert (Hnot : ∀ entries, entries ≡ₚ map_to_list dirToRepo → k ∉ entries.*1).
        { intros entries Hperm [[k' r] [-> Hkr]]%list_elem_of_fmap.
          rewrite Hperm in Hkr. apply elem_of_map_to_list in Hkr. cbn in *. congruence. }
        by rewrite Hothers, Hothers2 by by apply Hnot.
    + destruct w' as [n], w2 as [n2]. cbn in *. f_equal.
      rewrite Hreads, Hreads2. by rewrite Horder, Horder'.
  - destruct Hsecond as (d & r & Hd & Herr).
    assert (Hd1 : (d, r) ∈ map_range env dirToRepo).
    { rewrite Horder. rewrite Horder' in Hd. done. }
    destruct (Hkeys _ _ Hd1) as (xs & Hxs & _).
    rewrite messagesFor_withRange in Herr. by rewrite Hxs in Herr.
Qed.

(** The two sample repositories, visited in the order of the map and in
    the opposite order. *)
Lemma visiting_order_irrelevant_witness :
  getCommitMessages (withRange Samples.env (fun m => reverse (map_to_list m)))
    {[ "api" := Fixtures.api; "proj" := Fixtures.proj ]} "" true (12 * time.Hour)
    Fixtures.start =
  Ok ({[ "api" := ["add endpoint"]; "proj" := ["fix bug"; "add feature"] ]},
      tick (tick Fixtures.start)).
Proof.
  refine (visiting_order_irrelevant Samples.env (fun m => reverse (map_to_list m))
            {[ "api" := Fixtures.api; "proj" := Fixtures.proj ]} "" true (12 * time.Hour)
            Fixtures.start Fixtures.now
            {[ "api" := ["add endpoint"]; "proj" := ["fix bug"; "add feature"] ]}
            (tick (tick Fixtures.start)) _ _ (fun _ => eq_refl) _ _).
  - reflexivity.
  - apply reverse_Permutation.
  - intros dir repo Hin.
    apply lookup_insert_Some in Hin as [[<- _]|[_ Hin]]; [reflexivity|].
    apply lookup_singleton_Some in Hin as [<- _]. reflexivity.
  - vm_compute. reflexivity.
Defined.

(** ** Further samples *)

Lemma validatePaths_accepts_witness :
  validatePaths Samples.env ["work/api"] = Ok tt.
Proof.
  exact (proj2 (proj1 (validatePaths_accepts Samples.env ["work/api"])) eq_refl).
Defined.

Lemma getRepositories_in_order_witness :
  length ["work/api"; "work/frontend"] = length [Fixtures.api; Fixtures.unborn]
  ∧ ∀ i dir repo,
      ["work/api"; "work/frontend"] !! i = Some dir →
      [Fixtures.api; Fixtures.unborn] !! i = Some repo →
      git_PlainOpen Samples.env dir = Ok repo.
Proof.
  exact (proj1 (getRepositories_in_order Samples.env ["work/api"; "work/frontend"]
                  [Fixtures.api; Fixtures.unborn]) eq_refl).
Defined.

(** [today ./] where the working directory cannot be determined. *)
Lemma getBaseDirectoryName_fails_witness :
  getBaseDirectoryName Samples.lost "./" =
    Err (ErrOther "getwd: no such file or directory").
Proof.
  exact (proj2 (getBaseDirectoryName_fails Samples.lost "./"
                  (ErrOther "getwd: no such file or directory"))
           (conj (or_intror eq_refl) eq_refl)).
Defined.

(** The repository made ten seconds ago has no commit outside a window
    of a minute, and is not processed. *)
Lemma dir_succeeds_iff_witness :
  is_Err (getCommitMessages_dir Samples.env "" true (12 * time.Hour) "proj"
            Fixtures.proj (∅, Fixtures.start)) = false.
Proof.
  apply (dir_succeeds_iff Samples.env "" true (12 * time.Hour) "proj" Fixtures.proj
           ∅ Fixtures.start).
  exists "proj", {| Hash := "HEAD" |}.
  eexists. repeat split; reflexivity.
Defined.

